(** * Orientation preference maps: a model of [opm.py] and its properties

    The module [opm.py] offers a generator of synthetic orientation
    preference maps ([make_opm]), the enumeration of pixel coordinates
    ([get_indices]), a least-squares estimator of map components
    ([calculate_map]) and two plotting helpers.  The development below
    embeds these functions together with the few numpy primitives they call,
    and proves the properties the specification states about them.

    Conventions of the embedding.

    - A numpy array is a [shape] and a flat, row-major (C order) [data]
      buffer, which is how numpy stores a freshly created array.
    - The two-dimensional inputs of [calculate_map] are matrices of MathComp,
      so that the products, the transpose and the inverse of line 143 are the
      library's.  Double precision numbers are idealised as the elements of
      a real field [F]: the rounding of values is not modelled.  Two library
      calls of [calculate_map] decide between outcomes, an error or a shape,
      and there rounding matters: [np.linalg.inv] (line 143) and the rounded
      square root (line 147).  [calculate_map] takes both in exact
      arithmetic; [calculate_map_with] leaves the inversion routine open and
      is used with [default_side], line 147 computed in binary64, and on
      concrete inputs with [binary64_inv], which fails where the elimination
      in binary64 meets a zero pivot.
    - A Python exception is a value of [exception]; a call that may raise
      returns a [result].  The specification's names for them are
      [SingularDesignMatrix] for [LinAlgError] (raised by [np.linalg.inv]),
      [ShapeMismatch] for the [ValueError] of [reshape], and [InvalidShape]
      for the [ValueError] numpy raises on a negative dimension.
    - The process-wide random source of [np.random] is an explicit state. *)

From Stdlib Require Import Reals Lra Lia.
From Stdlib Require PrimFloat FloatOps SpecFloat Uint63.
From HB Require Import structures.
From mathcomp Require Import boot order algebra.
From mathcomp Require Import fingroup perm.

Set Implicit Arguments.
Unset Strict Implicit.
Unset Printing Implicit Defensive.

Import GRing.Theory Num.Theory.

Delimit Scope R_scope with Real.
Delimit Scope Z_scope with binZ.

(* ===================================================================== *)
(** * Part I: definitions *)
(* ===================================================================== *)

(** ** The Python runtime: exceptions and results *)

Inductive exception : Set :=
| ValueError
| IndexError
| LinAlgError.

Inductive result (T : Type) : Type :=
| Ok (x : T)
| Raise (e : exception).

Arguments Ok {T} x.
Arguments Raise {T} e.

Definition bind {A B : Type} (r : result A) (k : A -> result B) : result B :=
  match r with
  | Ok x => k x
  | Raise e => Raise e
  end.

Notation "x <- r ;; k" := (bind r (fun x => k))
  (at level 100, r at next level, right associativity).

(** ** numpy arrays: a shape and a row-major buffer *)

Record ndarray (T : Type) : Type := NdArray {
  shape : seq nat;
  data : seq T
}.

(** The number of elements a shape announces. *)
Definition numel (sh : seq nat) : nat := foldr muln 1 sh.

(** [a.reshape(newshape)]: same buffer, new shape; numpy raises
    [ValueError] ("cannot reshape array of size ...") when the sizes differ. *)
Definition reshape {T : Type} (a : ndarray T) (newshape : seq nat)
  : result (ndarray T) :=
  if numel newshape == size (data a) then Ok (NdArray newshape (data a))
  else Raise ValueError.

(** [a.flatten()]. *)
Definition ndflatten {T : Type} (a : ndarray T) : ndarray T :=
  NdArray [:: size (data a)] (data a).

(** A one-dimensional array from its elements. *)
Definition array1 {T : Type} (s : seq T) : ndarray T :=
  NdArray [:: size s] s.


(** [a[i] = g], the values of [g] being cast to the element type of [a] by
    [cast]: numpy raises [IndexError] when [i] is out of bounds and
    [ValueError] when [g] has not the shape of [a[i]] (broadcasting of a
    smaller [g] is not needed by [opm.py] and not modelled). *)
Definition setitem {S T : Type} (cast : S -> T) (a : ndarray T) (i : nat)
  (g : ndarray S) : result (ndarray T) :=
  let k := numel (behead (shape a)) in
  if ~~ (i < head 0 (shape a)) then Raise IndexError
  else if behead (shape a) != shape g then Raise ValueError
  else Ok (NdArray (shape a)
             (take (i * k) (data a) ++ map cast (data g)
                ++ drop (i.+1 * k) (data a))).

(** Two arrays of one shape, with buffers of one length. *)
Definition same_shape {S T : Type} (a : ndarray S) (b : ndarray T) : Prop :=
  shape a = shape b /\ size (data a) = size (data b).

(** The rows of a two-dimensional array, each a list of its entries. *)
Fixpoint chunks {T : Type} (k n : nat) (s : seq T) : seq (seq T) :=
  if n is n'.+1 then take k s :: chunks k n' (drop k s) else [::].

Definition array_rows {T : Type} (a : ndarray T) : seq (seq T) :=
  chunks (numel (behead (shape a))) (head 0 (shape a)) (data a).

(** ** Sizes: an [int] or a tuple *)

(** The [size] argument of [make_opm] and [get_indices]: a Python [int] or a
    tuple of ints. *)
Inductive size_arg : Set :=
| SizeInt (s : int)
| SizeTuple (t : seq int).

(** Lines 19-22 and 118-121:
<<
    if isinstance(size, int):
        sx, sy = size, size
    else:
        sx, sy = size
>>
    Unpacking a tuple that has not two elements raises [ValueError]. *)
Definition unpack_size (size : size_arg) : result (int * int) :=
  match size with
  | SizeInt s => Ok (s, s)
  | SizeTuple [:: sx; sy] => Ok (sx, sy)
  | SizeTuple _ => Raise ValueError
  end.

(** The dimensions of a valid size: a positive [int], or a pair of positive
    ints. *)
Definition valid_size (size : size_arg) (sx sy : nat) : Prop :=
  unpack_size size = Ok (Posz sx, Posz sy) /\ 0 < sx /\ 0 < sy.

(** ** [get_indices] (lines 108-126) *)

(** [np.arange(n)]: the integers from 0 below [n], none when [n <= 0]. *)
Definition arange (n : int) : ndarray nat :=
  let k := if n is Posz k then k else 0 in
  NdArray [:: k] (iota 0 k).

(** [np.meshgrid(x, y)] with the default [indexing='xy']: two arrays of
    shape [(len(y), len(x))], the first repeating [x] along every row, the
    second constant along each row. *)
Definition meshgrid {T : Type} (x y : ndarray T) : ndarray T * ndarray T :=
  let nx := size (data x) in
  let ny := size (data y) in
  (NdArray [:: ny; nx] (flatten (nseq ny (data x))),
   NdArray [:: ny; nx] (flatten [seq nseq nx v | v <- data y])).

(** [np.vstack((a, b))] of two one-dimensional arrays. *)
Definition vstack2 {T : Type} (a b : ndarray T) : result (ndarray T) :=
  if size (data a) == size (data b)
  then Ok (NdArray [:: 2; size (data a)] (data a ++ data b))
  else Raise ValueError.

(** [a.T] of a two-dimensional array, as a fresh row-major buffer. *)
Definition transpose {T : Type} (x0 : T) (a : ndarray T) : ndarray T :=
  match shape a with
  | [:: r; c] =>
      NdArray [:: c; r]
        (flatten [seq [seq nth x0 (data a) (i * c + j) | i <- iota 0 r]
                 | j <- iota 0 c])
  | _ => a
  end.

Definition get_indices (size : size_arg) : result (ndarray nat) :=
  sz <- unpack_size size ;;
  let: (sx, sy) := sz in
  let: (X, Y) := meshgrid (arange sx) (arange sy) in
  st <- vstack2 (ndflatten X) (ndflatten Y) ;;
  Ok (transpose 0 st).

(** Row [k] of the table in closed form: [x] runs fastest. *)
Definition index_row (sx k : nat) : seq nat := [:: k %% sx; k %/ sx].

(** ** The shape arithmetic of [calculate_map] *)

(** [int(np.round(np.sqrt(n)))] for a number of columns [n], in exact
    arithmetic.  The square root of a natural number is an integer or
    irrational, so it is never halfway between two integers, and the nearest
    integer is the integer square root [r] when [n <= r * r + r] and [r + 1]
    otherwise.  Line 147 rounds the double nearest to the square root, half
    to even: the two agree while that double is not itself a half-integer,
    in particular on the perfect squares that a double holds exactly, and
    differ for instance at [n = 2^52 + 2^26 + 1], where the double square
    root is [2^26 + 1/2] and line 147 gives [2^26].  [default_side] below
    is line 147 in binary64. *)
Definition round_sqrt (n : nat) : nat :=
  let r := Nat.sqrt n in
  if n - r * r <= r then r else r.+1.

(** [np.round] of a double, read as an integer: the nearest integer, and
    the even one of the two when the double lies halfway between them.  A
    finite double is [m * 2^e] for a mantissa [m] and an exponent [e]; for a
    negative exponent [-k] the quotient of [m] by [2^k] is the integer below
    and twice the remainder is compared with [2^k].  Zero gives 0; an
    infinity or a NaN, which the square root of a count never is, is read as
    0 as well. *)
Definition rint (x : PrimFloat.float) : Z :=
  match FloatOps.Prim2SF x with
  | SpecFloat.S754_finite sign m e =>
      let v :=
        match e with
        | Z0 => Zpos m
        | Zpos k => Z.shiftl (Zpos m) (Zpos k)
        | Zneg k =>
            let q := Z.shiftr (Zpos m) (Zpos k) in
            let twice_rest := (2 * (Zpos m - Z.shiftl q (Zpos k)))%binZ in
            let unit := Z.shiftl 1 (Zpos k) in
            if (twice_rest <? unit)%binZ then q
            else if (unit <? twice_rest)%binZ then (q + 1)%binZ
            else if Z.even q then q else (q + 1)%binZ
        end in
      if sign then Z.opp v else v
  | _ => Z0
  end.

(** Line 147 as numpy computes it, [int(np.round(np.sqrt(n)))] in binary64:
    the integer [n] (below [2^63], as the length of an axis is) is converted
    to the nearest double, [np.sqrt] returns the double nearest to the square
    root, and [np.round] rounds that double half to even. *)
Definition sqrt_side (n : Z) : Z :=
  rint (PrimFloat.sqrt (PrimFloat.of_uint63 (Uint63.of_Z n))).

Definition default_side (n : nat) : nat := Z.to_nat (sqrt_side (Z.of_nat n)).

(** Where a row-major reshape to [sx] by [sy] puts the k-th entry of the
    flat row: entry [k] becomes element [k %/ sy, k %% sy] of the grid. *)
Definition reshape_position (sx sy k : nat) : nat * nat :=
  (k %/ sy, k %% sy).

(** Element [p, q] of a two-dimensional array. *)
Definition item2 {T : Type} (x0 : T) (a : ndarray T) (p q : nat) : T :=
  nth x0 (data a) (p * nth 0 (shape a) 1 + q).

(** ** Complex numbers *)

(** A Python [complex]: a real and an imaginary part. *)
Record complex (T : Type) : Type := Complex { Re : T; Im : T }.

Section ComplexRing.

Variable F : realFieldType.

Local Open Scope ring_scope.

Definition complex_pair (z : complex F) : F * F := (Re z, Im z).

Definition pair_complex (p : F * F) : complex F := Complex p.1 p.2.

Lemma complex_pairK : cancel complex_pair pair_complex.
Proof. by case. Qed.

HB.instance Definition _ := Choice.copy (complex F) (can_type complex_pairK).

(** A float read as a complex number ([astype(complex)]). *)
Definition of_float (x : F) : complex F := Complex x 0.

Definition cadd (z w : complex F) : complex F :=
  Complex (Re z + Re w) (Im z + Im w).

Definition copp (z : complex F) : complex F := Complex (- Re z) (- Im z).

Definition cmul (z w : complex F) : complex F :=
  Complex (Re z * Re w - Im z * Im w) (Re z * Im w + Im z * Re w).

Lemma caddA : associative cadd.
Proof. by move=> [a b] [c d] [e f]; rewrite /cadd /= !addrA. Qed.

Lemma caddC : commutative cadd.
Proof. by move=> [a b] [c d]; rewrite /cadd /= [c + _]addrC [d + _]addrC. Qed.

Lemma cadd0 : left_id (of_float 0) cadd.
Proof. by move=> [a b]; rewrite /cadd /= !add0r. Qed.

Lemma caddN : left_inverse (of_float 0) copp cadd.
Proof. by move=> [a b]; rewrite /cadd /copp /of_float /= !addNr. Qed.

HB.instance Definition _ :=
  GRing.isZmodule.Build (complex F) caddA caddC cadd0 caddN.

Lemma cmulA : associative cmul.
Proof. by move=> [a b] [c d] [e f]; rewrite /cmul /=; congr Complex; ring. Qed.

Lemma cmulC : commutative cmul.
Proof. by move=> [a b] [c d]; rewrite /cmul /=; congr Complex; ring. Qed.

Lemma cmul1 : left_id (of_float 1) cmul.
Proof. by move=> [a b]; rewrite /cmul /=; congr Complex; ring. Qed.

Lemma cmulDl : left_distributive cmul cadd.
Proof. by move=> [a b] [c d] [e f]; rewrite /cmul /cadd /=; congr Complex; ring. Qed.

Lemma c1_neq0 : of_float 1 != of_float 0 :> complex F.
Proof.
apply/eqP => /(congr1 (@Re F)) /= /eqP.
by rewrite oner_eq0.
Qed.

HB.instance Definition _ :=
  GRing.Zmodule_isComNzRing.Build (complex F) cmulA cmulC cmul1 cmulDl c1_neq0.

(** The imaginary unit, Python's [1j]. *)
Definition imaginary_unit : complex F := Complex 0 1.

End ComplexRing.

(** ** [calculate_map] (lines 128-155) *)

Section Estimator.

Variable F : realFieldType.

Local Open Scope ring_scope.

(** A two-dimensional numeric array with its dtype: [float64] or
    [complex128]. *)
Inductive array2 (m n : nat) : Type :=
| Float64 (A : 'M[F]_(m, n))
| Complex128 (A : 'M[complex F]_(m, n)).

(** [P @ R] for a real [P]: numpy converts [P] to the dtype of [R]. *)
Definition matmul (m n p : nat) (P : 'M[F]_(m, n)) (R : array2 n p)
  : array2 m p :=
  match R with
  | Float64 A => Float64 (P *m A)
  | Complex128 A => Complex128 (map_mx (@of_float F) P *m A)
  end.

(** [np.linalg.inv] in exact arithmetic: the inverse of an invertible
    matrix, and [LinAlgError] ("Singular matrix") on a matrix that has
    none.  The routine of numpy factorises in double precision and raises
    only on a pivot that is exactly zero, so that on a singular matrix it
    may also return a matrix; [calculate_map_with] below leaves the routine
    open, and what is said about the error being raised is said there.
    [binary64_inv] further below raises where the elimination in binary64
    does. *)
Definition linalg_inv (n : nat) (A : 'M[F]_n) : result 'M[F]_n :=
  if A \in unitmx then Ok (invmx A) else Raise LinAlgError.

(** [np.zeros(dims)], of dtype [float64]: numpy raises [ValueError] on a
    negative dimension. *)
Definition zeros (dims : seq int) : result (ndarray F) :=
  if all (fun z : int => 0 <= z) dims
  then Ok (NdArray (map absz dims) (nseq (numel (map absz dims)) 0))
  else Raise ValueError.

(** Iterating over a two-dimensional array yields its rows. *)
Definition mx_rows (T : Type) (m n : nat) (A : 'M[T]_(m, n)) : seq (seq T) :=
  [seq [seq A i j | j <- enum 'I_n] | i <- enum 'I_m].

(** Lines 152-153, from row [i] on:
<<
    for i, a in enumerate(M_flat):
        M[i] = a.reshape( *size)
>>
    [cast] is the conversion to [float64] that the assignment into [M]
    performs. *)
Fixpoint assign_rows (T : Type) (cast : T -> F) (size : seq nat)
  (M : ndarray F) (i : nat) (rows : seq (seq T)) : result (ndarray F) :=
  match rows with
  | [::] => Ok M
  | a :: rows' =>
      g <- reshape (array1 a) size ;;
      M' <- setitem cast M i g ;;
      assign_rows cast size M' i.+1 rows'
  end.

(** Lines 146-148: a missing [size] becomes the square of side
    [int(np.round(np.sqrt(R.shape[1])))].
<<
    if not size:
        size = int(np.round(np.sqrt(R.shape[1])))
        size = (size, size)
>>
    [size] is [None] or a pair of ints, and a pair is never falsy. *)
Definition resolve_size (n : nat) (size : option (int * int)) : int * int :=
  if size is Some sz then sz
  else let s := Posz (round_sqrt n) in (s, s).

(** The stimuli are of dtype [float64]; the responses carry their dtype.
    After [np.zeros] has accepted the dimensions they are not negative, so
    [reshape] receives naturals. *)
Definition calculate_map (N n d : nat) (responses : array2 N n)
  (stimuli : 'M[F]_(N, d)) (size : option (int * int))
  : result (ndarray F) :=
  let V := stimuli in
  let R := responses in
  G <- linalg_inv (V^T *m V) ;;
  let M_flat := matmul (G *m V^T) R in
  let size := resolve_size n size in
  M <- zeros [:: Posz d; size.1; size.2] ;;
  let dims := [:: absz size.1; absz size.2] in
  match M_flat with
  | Float64 A => assign_rows id dims M 0 (mx_rows A)
  | Complex128 A => assign_rows (@Re F) dims M 0 (mx_rows A)
  end.

(** [calculate_map] again, line by line, with its two numeric library
    calls left open: [inv] stands for [np.linalg.inv] and [side] for
    [int(np.round(np.sqrt(.)))] of line 147.  [calculate_map] is the
    instance at the exact inverse and the exact rounding; at [default_side]
    the default size is the one numpy computes. *)
Definition resolve_size_with (side : nat -> nat) (n : nat)
  (size : option (int * int)) : int * int :=
  if size is Some sz then sz
  else let s := Posz (side n) in (s, s).

Definition calculate_map_with
  (inv : forall k : nat, 'M[F]_k -> result 'M[F]_k) (side : nat -> nat)
  (N n d : nat) (responses : array2 N n) (stimuli : 'M[F]_(N, d))
  (size : option (int * int)) : result (ndarray F) :=
  let V := stimuli in
  let R := responses in
  G <- inv d (V^T *m V) ;;
  let M_flat := matmul (G *m V^T) R in
  let size := resolve_size_with side n size in
  M <- zeros [:: Posz d; size.1; size.2] ;;
  let dims := [:: absz size.1; absz size.2] in
  match M_flat with
  | Float64 A => assign_rows id dims M 0 (mx_rows A)
  | Complex128 A => assign_rows (@Re F) dims M 0 (mx_rows A)
  end.

(** The coefficient matrix of the specification, [(V^T V)^-1 V^T R]. *)
Definition least_squares (N n d : nat) (V : 'M[F]_(N, d)) (R : 'M[F]_(N, n))
  : 'M[F]_(d, n) :=
  invmx (V^T *m V) *m V^T *m R.


(** The squared Frobenius norm, the sum of the squares of the entries: the
    sum of squared residuals when applied to [R - V M]. *)
Definition sq_norm (m n : nat) (A : 'M[F]_(m, n)) : F :=
  \sum_i \sum_j A i j ^+ 2.

End Estimator.

(** ** The inversion of line 143 in binary64 *)

(** The double that holds a small natural number. *)
Definition float_of_nat (n : nat) : PrimFloat.float :=
  PrimFloat.of_uint63 (Uint63.of_Z (Z.of_nat n)).

(** The position, in [x :: xs], of the first entry of largest absolute
    value: the pivot search of the elimination. *)
Fixpoint argmax_abs (x : PrimFloat.float) (xs : seq PrimFloat.float) : nat :=
  if xs is y :: ys then
    let i := argmax_abs y ys in
    if PrimFloat.ltb (PrimFloat.abs x) (PrimFloat.abs (nth y (y :: ys) i))
    then i.+1 else 0
  else 0.

(** The factorisation on which [np.linalg.inv] rests, Gaussian elimination
    with partial pivoting in binary64, on a matrix given by its [n] rows:
    the pivots it meets, or [None] when a pivot is zero, which is where numpy
    raises [LinAlgError].  At each step the row of the largest leading entry
    is swapped to the top, the other rows are scaled by the reciprocal of
    the pivot and reduced. *)
Fixpoint lu_pivots (n : nat) (A : seq (seq PrimFloat.float))
  : option (seq PrimFloat.float) :=
  match n, A with
  | n'.+1, top :: rows =>
      let lead := head PrimFloat.zero in
      let i := argmax_abs (lead top) (map lead rows) in
      let p := nth top A i in
      let rest := behead (set_nth top A i top) in
      if PrimFloat.eqb (lead p) PrimFloat.zero then None
      else
        let recip := PrimFloat.div PrimFloat.one (lead p) in
        let reduce r :=
          let l := PrimFloat.mul (lead r) recip in
          [seq PrimFloat.sub x.1 (PrimFloat.mul l x.2)
          | x <- zip (behead r) (behead p)] in
        omap (cons (lead p)) (lu_pivots n' (map reduce rest))
  | _, _ => Some [::]
  end.

(** The double nearest to a rational number whose numerator and denominator
    are held exactly by a double: their quotient, rounded once. *)
Definition float_of_rat (q : rat) : PrimFloat.float :=
  let num :=
    match numq q with
    | Posz n => float_of_nat n
    | Negz n => PrimFloat.opp (float_of_nat n.+1)
    end in
  PrimFloat.div num (float_of_nat (absz (denq q))).

(** [np.linalg.inv] with the failures of binary64: the entries are rounded
    to doubles and eliminated with partial pivoting; a pivot that is zero
    raises [LinAlgError] ("Singular matrix") and otherwise a matrix is
    returned.  The values returned stay idealised: the exact inverse where
    there is one, for which numpy returns a rounded counterpart, and
    otherwise the argument, for which numpy returns some matrix of large
    entries. *)
Definition binary64_inv (k : nat) (A : 'M[rat]_k) : result 'M[rat]_k :=
  if lu_pivots k (map (map float_of_rat) (mx_rows A)) is Some _
  then Ok (invmx A) else Raise LinAlgError.

(** The stimuli [0 1 2; 3 4 5; 6 7 8], of rank 2: the middle column is the
    mean of the other two. *)
Definition stimuli_counting : 'M[rat]_3 := (\matrix_(i, j) (3 * i + j)%:R)%R.

(** The Gram matrix of these stimuli, entry by entry. *)
Definition gram_counting_table : seq (seq nat) :=
  [:: [:: 45; 54; 63]; [:: 54; 66; 78]; [:: 63; 78; 93]].

(** ** [make_opm] (lines 6-35) *)

Section Generator.

Variable F : realFieldType.

(** The state of numpy's global random source, and one draw from the
    standard normal distribution. *)
Variable random_state : Type.
Variable standard_normal : random_state -> F * random_state.

(** [scipy.ndimage.gaussian_filter(input, sigma)]. *)
Variable gaussian_filter : ndarray F -> F -> ndarray F.

Local Open Scope ring_scope.

(** The state of the source after [i] draws, and the number that draw
    [i] (counted from 0) returns: the sequence the sampler produces from
    [st], read off [standard_normal] alone. *)
Definition advance (i : nat) (st : random_state) : random_state :=
  iter i (fun s => (standard_normal s).2) st.

Definition nth_draw (st : random_state) (i : nat) : F :=
  (standard_normal (advance i st)).1.

(** [k] successive draws. *)
Fixpoint draw (k : nat) (st : random_state) : seq F * random_state :=
  if k is k'.+1 then
    let: (x, st1) := standard_normal st in
    let: (xs, st2) := draw k' st1 in
    (x :: xs, st2)
  else ([::], st).

(** [np.random.randn(sx, sy)]: numpy raises [ValueError] ("negative
    dimensions are not allowed") and draws nothing when a dimension is
    negative; a dimension 0 gives an empty array. *)
Definition randn (sx sy : int) (st : random_state)
  : result (ndarray F) * random_state :=
  match sx, sy with
  | Posz nx, Posz ny =>
      let: (xs, st') := draw (nx * ny) st in
      (Ok (NdArray [:: nx; ny] xs), st')
  | _, _ => (Raise ValueError, st)
  end.

(** [c * a] for a scalar [c]. *)
Definition scale (T : pzRingType) (c : T) (a : ndarray T) : ndarray T :=
  NdArray (shape a) [seq c * x | x <- data a].

(** [a.astype(complex)]. *)
Definition astype_complex (a : ndarray F) : ndarray (complex F) :=
  NdArray (shape a) (map (@of_float F) (data a)).

(** [a op b], element by element, for arrays of one shape; numpy raises
    [ValueError] on shapes it cannot broadcast (broadcasting of different
    shapes is not needed by [opm.py] and not modelled). *)
Definition elementwise (T : Type) (op : T -> T -> T) (a b : ndarray T)
  : result (ndarray T) :=
  if shape a == shape b
  then Ok (NdArray (shape a) [seq op p.1 p.2 | p <- zip (data a) (data b)])
  else Raise ValueError.

(** Lines 29 and 30: the difference of two Gaussian blurs. *)
Definition difference_of_gaussians (sigma k alpha : F) (a : ndarray F)
  : result (ndarray F) :=
  elementwise (fun x y => x - y)
    (scale alpha (gaussian_filter a sigma))
    (scale alpha (gaussian_filter a (k * sigma))).

(** The band-pass filter of the specification at index [i] of the buffer:
    [alpha * GaussianBlur(x, sigma) - alpha * GaussianBlur(x, k * sigma)]. *)
Definition band_pass (sigma k alpha : F) (x : ndarray F) (i : nat) : F :=
  alpha * nth 0 (data (gaussian_filter x sigma)) i
  - alpha * nth 0 (data (gaussian_filter x (k * sigma))) i.

Definition make_opm (size : size_arg) (sigma k alpha : F) (st : random_state)
  : result (ndarray (complex F)) * random_state :=
  match unpack_size size with
  | Raise e => (Raise e, st)
  | Ok (sx, sy) =>
      let: (ra, st1) := randn sx sy st in
      match ra with
      | Raise e => (Raise e, st1)
      | Ok a =>
          let: (rb, st2) := randn sx sy st1 in
          match rb with
          | Raise e => (Raise e, st2)
          | Ok b =>
              (a' <- difference_of_gaussians sigma k alpha a ;;
               b' <- difference_of_gaussians sigma k alpha b ;;
               elementwise +%R (astype_complex a')
                 (scale (imaginary_unit F) (astype_complex b')),
               st2)
          end
      end
  end.

End Generator.

(** A deterministic stand-in for the random source, used to run [make_opm]
    on concrete inputs: the state is a counter and the n-th draw is [n]. *)
Definition counter_normal (st : nat) : rat * nat := (st%:R, st.+1)%R.

(** A second stand-in for the random source, whose draws are not evenly
    spaced: the n-th draw is the square of [n]. *)
Definition square_normal (st : nat) : rat * nat := ((st * st)%:R, st.+1)%R.

(** The random source as a sequence [omega] of samples and a position in
    it: a draw returns the sample at the position and moves on by one. *)
Definition stream_normal (T : Type) (omega : nat -> T) (t : nat) : T * nat :=
  (omega t, t.+1).

(** A stand-in for the filter that blends every entry with the mean of the
    array, the more the larger [sigma]: like the Gaussian blur it keeps the
    shape and smooths towards the mean. *)
Definition mean_filter (a : ndarray rat) (sigma : rat) : ndarray rat :=
  let mu := ((\sum_(x <- data a) x) / (size (data a))%:R)%R in
  NdArray (shape a) [seq ((x + sigma * mu) / (1 + sigma))%R | x <- data a].

(** A stand-in for the filter that returns its input, the limit of a
    Gaussian blur for a vanishing standard deviation. *)
Definition identity_filter (a : ndarray rat) (sigma : rat) : ndarray rat := a.

(** ** The angle handed to the plot, [plot_opm] (lines 49-54) *)

Section Visualisation.

Local Open Scope R_scope.

(** [np.arctan2(y, x)] on real numbers. *)
Definition arctan2 (y x : R) : R :=
  if Rlt_dec 0 x then atan (y / x)
  else if Rlt_dec x 0 then
    (if Rle_dec 0 y then atan (y / x) + PI else atan (y / x) - PI)
  else if Rlt_dec 0 y then PI / 2
  else if Rlt_dec y 0 then - PI / 2
  else 0.

(** [np.angle(z)] is [arctan2(z.imag, z.real)]. *)
Definition angle (z : complex R) : R := arctan2 (Im z) (Re z).

(** [np.iscomplex(z)]: whether the imaginary part is not zero. *)
Definition iscomplex (z : complex R) : bool :=
  if Req_dec_T (Im z) 0 then false else true.

(** The argument [m] of [plot_opm]: an array of dtype float or complex. *)
Inductive map_array : Type :=
| FloatMap (a : ndarray R)
| ComplexMap (a : ndarray (complex R)).

(** Lines 49-54: the array [theta] that is given to [imshow].
<<
    if np.iscomplex(m).any():
        theta = 0.5 * (np.angle(m) + np.pi)
    else:
        theta = m
>>
    [np.iscomplex] of a float array is [False] everywhere. *)
Definition plot_opm_theta (m : map_array) : map_array :=
  match m with
  | FloatMap _ => m
  | ComplexMap a =>
      if has iscomplex (data a)
      then FloatMap (NdArray (shape a) [seq 0.5 * (angle z + PI) | z <- data a])
      else m
  end.

(** [np.abs(z)] of a complex number, its modulus. *)
Definition cabs (z : complex R) : R := sqrt (Re z * Re z + Im z * Im z).

(** Lines 88-92 of [plot_amplitude_map]: the array [A] that is given to
    [imshow].
<<
    if np.iscomplex(m).any():
        A = np.abs(m)
    else:
        A = m
>> *)
Definition plot_amplitude_map_A (m : map_array) : map_array :=
  match m with
  | FloatMap _ => m
  | ComplexMap a =>
      if has iscomplex (data a)
      then FloatMap (NdArray (shape a) [seq cabs z | z <- data a])
      else m
  end.

(** [c * m] for a real scalar [c] and a complex map [m]. *)
Definition rescale (c : R) (a : ndarray (complex R)) : ndarray (complex R) :=
  NdArray (shape a) [seq Complex (c * Re z) (c * Im z) | z <- data a].

End Visualisation.

(** The [ring] and [field] tactics of the Standard Library, for the real
    numbers of [plot_opm]. *)
Ltac real_ring := let G := Get_goal in ring_lookup (PackRing Ring_gen) [] G.
Ltac real_field := let G := Get_goal in field_lookup (PackField FIELD) [] G.

(* ===================================================================== *)
(** * Part II: properties *)
(* ===================================================================== *)

(** ** The pixel indices *)

Section IndexLemmas.

Lemma size_flatten_nseq (T : Type) (n : nat) (s : seq T) :
  size (flatten (nseq n s)) = n * size s.
Proof. by elim: n => [|n IH] //=; rewrite size_cat IH mulSn. Qed.

Lemma nth_flatten_nseq_iota (nx ny k : nat) :
  k < ny * nx -> nth 0 (flatten (nseq ny (iota 0 nx))) k = k %% nx.
Proof.
elim: ny k => [|ny IH] k //=; rewrite nth_cat size_iota mulSn.
case: (ltnP k nx) => [lt_k _|le_k lt_k].
  by rewrite nth_iota ?add0n ?modn_small.
rewrite IH ?ltn_subLR //.
by rewrite -{2}(subnKC le_k) modnDl.
Qed.

Lemma size_flatten_const (T : Type) (nx : nat) (s : seq T) :
  size (flatten [seq nseq nx v | v <- s]) = size s * nx.
Proof. by elim: s => [|v s IH] //=; rewrite size_cat size_nseq IH mulSn. Qed.

Lemma nth_flatten_const_iota (nx a ny k : nat) :
  k < ny * nx ->
  nth 0 (flatten [seq nseq nx v | v <- iota a ny]) k = a + k %/ nx.
Proof.
elim: ny a k => [|ny IH] a k //=; rewrite nth_cat size_nseq mulSn.
case: (ltnP k nx) => [lt_k _|le_k lt_k].
  by rewrite nth_nseq lt_k divn_small // addn0.
rewrite IH ?ltn_subLR //.
have nx_gt0 : 0 < nx by case: (nx) lt_k => //; rewrite muln0.
by rewrite -{2}(subnKC le_k) divnDl ?dvdnn // divnn nx_gt0 addSnnS add1n.
Qed.

Lemma chunks_flatten (T : Type) (k : nat) (ss : seq (seq T)) :
  all (fun s => size s == k) ss -> chunks k (size ss) (flatten ss) = ss.
Proof.
elim: ss => [|s ss IH] //= /andP[/eqP sz_s all_ss].
by rewrite -sz_s take_size_cat // drop_size_cat // sz_s IH.
Qed.

Lemma get_indices_pair (sx sy : nat) :
  get_indices (SizeTuple [:: Posz sx; Posz sy]) =
  Ok (NdArray [:: sy * sx; 2]
        (flatten [seq index_row sx k | k <- iota 0 (sy * sx)])).
Proof.
rewrite /get_indices /= /vstack2 /= size_flatten_nseq size_flatten_const.
rewrite !size_iota eqxx /= /transpose /=; congr (Ok (NdArray _ (flatten _))).
apply/eq_in_map => k; rewrite mem_iota add0n /= => lt_k.
rewrite mul0n add0n mul1n !nth_cat size_flatten_nseq size_iota lt_k.
rewrite ltnNge leq_addr /= addKn nth_flatten_nseq_iota //.
by rewrite nth_flatten_const_iota.
Qed.

Lemma get_indices_int (s : nat) :
  get_indices (SizeInt (Posz s)) = get_indices (SizeTuple [:: Posz s; Posz s]).
Proof. by []. Qed.

Lemma array_rows_indices (sx n : nat) :
  array_rows (NdArray [:: n; 2] (flatten [seq index_row sx k | k <- iota 0 n]))
  = [seq index_row sx k | k <- iota 0 n].
Proof.
rewrite /array_rows /= muln1 -{1}(size_iota 0 n) -(size_map (index_row sx)).
by apply: chunks_flatten; apply/allP => r /mapP[k _ ->].
Qed.

Lemma index_row_inj (sx : nat) : injective (index_row sx).
Proof.
move=> j k [eq_mod eq_div].
by rewrite (divn_eq j sx) (divn_eq k sx) eq_mod eq_div.
Qed.

Lemma valid_size_cases (size : size_arg) (sx sy : nat) :
  valid_size size sx sy ->
  get_indices size = get_indices (SizeTuple [:: Posz sx; Posz sy]).
Proof.
case=> + _; case: size => [s|[|a [|b [|c t]]]] //=.
  by case=> ->{s} <-.
by case=> -> ->.
Qed.

End IndexLemmas.

Section IndexTheorems.

Lemma reshape_item2 (T : Type) (x0 : T) (a : seq T) (sx sy : nat)
  (g : ndarray T) (k : nat) :
  reshape (array1 a) [:: sx; sy] = Ok g ->
  item2 x0 g (reshape_position sx sy k).1 (reshape_position sx sy k).2
  = nth x0 a k.
Proof.
rewrite /reshape; case: ifP => // _ [<-].
by rewrite /item2 /= -divn_eq.
Qed.

Lemma get_indices_valid (sz : size_arg) (sx sy : nat) :
  valid_size sz sx sy ->
  get_indices sz =
  Ok (NdArray [:: sx * sy; 2]
        (flatten [seq index_row sx k | k <- iota 0 (sx * sy)])).
Proof.
by move/valid_size_cases->; rewrite get_indices_pair mulnC.
Qed.

Lemma index_rowP (sx sy : nat) (r : seq nat) :
  0 < sx ->
  reflect (exists x y, [/\ r = [:: x; y], x < sx & y < sy])
          (r \in [seq index_row sx k | k <- iota 0 (sx * sy)]).
Proof.
move=> sx_gt0; apply: (iffP mapP) => [[k]|[x [y [-> lt_x lt_y]]]].
  rewrite mem_iota add0n /= => lt_k ->; exists (k %% sx), (k %/ sx).
  by split; rewrite ?ltn_pmod // ltn_divLR // mulnC.
exists (y * sx + x).
  rewrite mem_iota add0n /=.
  have lt1: y * sx + x < y.+1 * sx by rewrite mulSn addnC ltn_add2r.
  by apply: leq_trans lt1 _; rewrite mulnC leq_mul2l lt_y orbT.
by rewrite /index_row modnMDl modn_small // divnMDl // divn_small // addn0.
Qed.

End IndexTheorems.

Section IndexClaims.

(** C7.  For a valid size with dimensions [sx] and [sy], [get_indices]
    returns an array of [sx * sy] rows of two integers; the rows are pairwise
    distinct, and a row occurs exactly when it is a pair [(x, y)] with
    [x < sx] and [y < sy]. *)
Theorem get_indices_enumerates (sz : size_arg) (sx sy : nat) :
  valid_size sz sx sy ->
  exists idx : ndarray nat,
    [/\ get_indices sz = Ok idx,
        shape idx = [:: sx * sy; 2],
        size (array_rows idx) = sx * sy,
        uniq (array_rows idx)
      & forall r : seq nat,
          r \in array_rows idx <->
          exists x y, [/\ r = [:: x; y], x < sx & y < sy]].
Proof.
move=> valid; have [_ [sx_gt0 _]] := valid.
exists (NdArray [:: sx * sy; 2]
          (flatten [seq index_row sx k | k <- iota 0 (sx * sy)])).
rewrite array_rows_indices; split=> //.
- exact: get_indices_valid.
- by rewrite size_map size_iota.
- by rewrite (map_inj_uniq (@index_row_inj sx)) iota_uniq.
- by move=> r; split=> /index_rowP; apply.
Qed.

Lemma get_indices_enumerates_witness :
  exists idx : ndarray nat,
    [/\ get_indices (SizeTuple [:: Posz 2; Posz 3]) = Ok idx,
        shape idx = [:: 2 * 3; 2],
        size (array_rows idx) = 2 * 3,
        uniq (array_rows idx)
      & forall r : seq nat,
          r \in array_rows idx <->
          exists x y, [/\ r = [:: x; y], x < 2 & y < 3]].
Proof.
apply: (@get_indices_enumerates (SizeTuple [:: Posz 2; Posz 3]) 2 3).
by split; [reflexivity | split; reflexivity].
Defined.

(** C8, as stated, fails: for the size [(2, 3)] row 2 of [get_indices] is
    [(0, 1)], while the reshape of [calculate_map] puts flat entry 2 at
    position [(0, 2)] of the 2 by 3 grid (first index 0, second index 2).
    Neither reading of the row, [(x, y)] or [(y, x)], is that position. *)
Lemma get_indices_order_counterexample :
  exists idx : ndarray nat,
    [/\ valid_size (SizeTuple [:: Posz 2; Posz 3]) 2 3,
        get_indices (SizeTuple [:: Posz 2; Posz 3]) = Ok idx,
        nth [::] (array_rows idx) 2 = [:: 0; 1],
        reshape_position 2 3 2 = (0, 2)
      & forall (a : seq nat) (g : ndarray nat),
          a = [:: 10; 11; 12; 13; 14; 15] ->
          reshape (array1 a) [:: 2; 3] = Ok g ->
          [/\ item2 0 g 0 2 = nth 0 a 2,
              item2 0 g 0 1 <> nth 0 a 2 & item2 0 g 1 0 <> nth 0 a 2]].
Proof.
eexists; split; [by split | reflexivity | reflexivity | reflexivity |].
by move=> a g -> [<-].
Defined.

(** C8, amended.  The rows of [get_indices] are in meshgrid order with [x]
    varying fastest: row [k] is [(x, y) = (k mod sx, k div sx)].  It names
    the position [y, x] of flat entry [k] in a row-major grid of [sy] rows
    and [sx] columns; for a square size ([sx = sy]) this is the position at
    which the reshape of [calculate_map] places flat entry [k], with [y] the
    first and [x] the second index. *)
Theorem get_indices_order (sz : size_arg) (sx sy : nat) :
  valid_size sz sx sy ->
  exists idx : ndarray nat,
    get_indices sz = Ok idx /\
    forall k : nat, k < sx * sy ->
      let x := nth 0 (nth [::] (array_rows idx) k) 0 in
      let y := nth 0 (nth [::] (array_rows idx) k) 1 in
      [/\ nth [::] (array_rows idx) k = [:: x; y],
          x = k %% sx /\ y = k %/ sx,
          reshape_position sy sx k = (y, x)
        & sx = sy ->
          forall (T : Type) (x0 : T) (a : seq T) (g : ndarray T),
            reshape (array1 a) [:: sx; sy] = Ok g ->
            item2 x0 g y x = nth x0 a k].
Proof.
move=> valid.
exists (NdArray [:: sx * sy; 2]
          (flatten [seq index_row sx k | k <- iota 0 (sx * sy)])).
split; first exact: get_indices_valid.
move=> k lt_k; rewrite array_rows_indices (nth_map 0) ?size_iota //.
rewrite nth_iota // add0n /=; split=> // eq_s T x0 a g.
by rewrite -eq_s => /(reshape_item2 x0 k).
Qed.

Lemma get_indices_order_witness :
  exists idx : ndarray nat,
    get_indices (SizeInt (Posz 3)) = Ok idx /\
    forall k : nat, k < 3 * 3 ->
      let x := nth 0 (nth [::] (array_rows idx) k) 0 in
      let y := nth 0 (nth [::] (array_rows idx) k) 1 in
      [/\ nth [::] (array_rows idx) k = [:: x; y],
          x = k %% 3 /\ y = k %/ 3,
          reshape_position 3 3 k = (y, x)
        & 3 = 3 ->
          forall (T : Type) (x0 : T) (a : seq T) (g : ndarray T),
            reshape (array1 a) [:: 3; 3] = Ok g ->
            item2 x0 g y x = nth x0 a k].
Proof.
apply: (@get_indices_order (SizeInt (Posz 3)) 3 3).
by split; [reflexivity | split; reflexivity].
Defined.

End IndexClaims.

(** ** The estimator *)

Section ShapeArithmetic.


Lemma round_sqrt_not_square (n : nat) :
  (forall s : nat, n <> s * s) -> round_sqrt n * round_sqrt n != n.
Proof. by move=> not_sq; apply/eqP => /esym /not_sq. Qed.

(** The exact rounding [round_sqrt n] is the integer nearest to the square
    root of [n]: [s - 1/2 < sqrt n < s + 1/2], stated on the squares of the
    doubles. *)
Lemma round_sqrt_nearest (n : nat) :
  0 < n ->
  (2 * round_sqrt n - 1) ^ 2 < 4 * n < (2 * round_sqrt n + 1) ^ 2.
Proof.
move=> /ltP n_gt0; rewrite /round_sqrt.
have [] := Nat.sqrt_spec n (Nat.le_0_l n).
set r := Nat.sqrt n => lo hi.
have r_gt0 : (0 < r)%coq_nat by nia.
case: (leqP (n - r * r) r) => [/leP|/ltP]; rewrite -?minusE -?multE => cmp;
  apply/andP; split; apply/ltP;
  rewrite /expn /= ?muln1 -?multE -?plusE -?minusE; nia.
Qed.

(** Line 147 in binary64 against the exact rounding, by evaluation. *)
Lemma default_side_exact (n : nat) :
  n < 4096 -> default_side n = round_sqrt n.
Proof.
move=> lt_n.
have /allP agree :
    all (fun k => default_side k == round_sqrt k) (iota 0 4096).
  by vm_compute.
by apply/eqP/agree; rewrite mem_iota.
Qed.

End ShapeArithmetic.

Section LoopLemmas.

Variable F : realFieldType.
Variables (T : Type) (cast : T -> F).

Local Open Scope ring_scope.

Lemma size_mx_rows (m n : nat) (A : 'M[T]_(m, n)) : size (mx_rows A) = m.
Proof. by rewrite size_map size_enum_ord. Qed.

Lemma all_size_mx_rows (m n : nat) (A : 'M[T]_(m, n)) :
  all (fun a => size a == n) (mx_rows A).
Proof.
by rewrite /mx_rows all_map; apply/allP => i _ /=; rewrite size_map size_enum_ord.
Qed.

Lemma assign_rows_ok (sx sy d : nat) (rows : seq (seq T)) (i : nat)
  (pre post : seq F) :
  all (fun a => size a == (sx * sy)%N) rows ->
  size pre = (i * (sx * sy))%N -> (i + size rows <= d)%N ->
  assign_rows cast [:: sx; sy] (NdArray [:: d; sx; sy] (pre ++ post)) i rows
  = Ok (NdArray [:: d; sx; sy]
          (pre ++ map cast (flatten rows)
             ++ drop (size rows * (sx * sy)) post)).
Proof.
elim: rows i pre post => [|a rows IH] i pre post /=.
  by rewrite drop0.
case/andP=> /eqP sz_a all_rows sz_pre le_d.
rewrite /reshape /= muln1.
rewrite sz_a eqxx /=.
rewrite /setitem /= muln1. 

have lt_i : (i < d)%N by apply: leq_trans le_d; rewrite addnS ltnS leq_addr.
rewrite lt_i /= eqxx /= -sz_pre take_size_cat // mulSn.
rewrite -sz_pre drop_cat ltnNge leq_addl /= addnK catA IH //.
- by rewrite size_cat size_map sz_pre sz_a mulSn addnC.
- by rewrite addSn -addnS.
- by rewrite map_cat -!catA drop_drop mulSn addnC.
Qed.

Lemma assign_rows_mismatch (dims : seq nat) (M : ndarray F) (i : nat)
  (a : seq T) (rows : seq (seq T)) :
  numel dims != size a ->
  assign_rows cast dims M i (a :: rows) = Raise ValueError.
Proof. by rewrite /= /reshape /= => /negbTE->. Qed.

Lemma assign_rows_shape (dims : seq nat) (M M' : ndarray F) (i : nat)
  (rows : seq (seq T)) :
  assign_rows cast dims M i rows = Ok M' -> shape M' = shape M.
Proof.
elim: rows M i => [|a rows IH] M i /=; first by case=> <-.
rewrite /reshape; case: ifP => //= _; rewrite /setitem /=.
by case: ifP => //= _; case: ifP => //= _ /IH.
Qed.

Lemma assign_rows_not_LinAlgError (dims : seq nat) (M : ndarray F) (i : nat)
  (rows : seq (seq T)) :
  assign_rows cast dims M i rows <> Raise LinAlgError.
Proof.
elim: rows M i => [|a rows IH] M i //=.
rewrite /reshape; case: ifP => //= _; rewrite /setitem /=.
by case: ifP => //= _; case: ifP => //= _.
Qed.

End LoopLemmas.

Section GramMatrix.

Variable F : realFieldType.

Local Open Scope ring_scope.

(** Over an ordered field a matrix [W] with [W W^T = 0] is zero: the
    diagonal of the product holds the sums of squares of the rows. *)
Lemma mulmx_tr_eq0 (m n : nat) (W : 'M[F]_(m, n)) : W *m W^T = 0 -> W = 0.
Proof.
move=> WWt; apply/matrixP => i j; rewrite [RHS]mxE.
have /psumr_eq0P sq0 : \sum_k W i k * W i k = 0.
  have := congr1 (fun A : 'M[F]_m => A i i) WWt; rewrite !mxE => sum0.
  by rewrite -[RHS]sum0; apply: eq_bigr => k _; rewrite mxE.
have sq_ge0 (k : 'I_n) : true -> 0 <= W i k * W i k.
  by rewrite -expr2 sqr_ge0.
have /eqP := sq0 sq_ge0 j isT.
by rewrite mulf_eq0 orbb => /eqP.
Qed.

(** A design matrix of full column rank has an invertible Gram matrix. *)
Lemma gram_unit (N d : nat) (V : 'M[F]_(N, d)) :
  \rank V = d -> V^T *m V \in unitmx.
Proof.
move=> rkV; rewrite -row_free_unit -kermx_eq0; apply/eqP.
set K := kermx _.
have KG : K *m (V^T *m V) = 0 by apply: mulmx_ker.
have KVt : K *m V^T = 0.
  apply: mulmx_tr_eq0; rewrite trmx_mul trmxK mulmxA -(mulmxA K) KG.
  by rewrite mul0mx.
have /row_freeP[B VtB] : row_free V^T by rewrite /row_free mxrank_tr rkV.
by rewrite -[K]mulmx1 -VtB mulmxA KVt mul0mx.
Qed.

(** A design matrix with a repeated column has a singular Gram matrix. *)
Lemma gram_duplicate_column (N d : nat) (V : 'M[F]_(N, d)) (j1 j2 : 'I_d) :
  j1 != j2 -> (forall r, V r j1 = V r j2) -> V^T *m V \notin unitmx.
Proof.
move=> neq_j eq_col; rewrite unitmxE (determinant_alternate neq_j) ?unitr0 //.
by move=> k; rewrite !mxE; apply: eq_bigr => r _; rewrite !mxE eq_col.
Qed.

(** A design matrix that sends a non-zero vector to zero has a singular
    Gram matrix. *)
Lemma gram_kernel (N d : nat) (V : 'M[F]_(N, d)) (x : 'cV[F]_d) :
  x != 0 -> V *m x = 0 -> V^T *m V \notin unitmx.
Proof.
move=> x_neq0 Vx0; apply/negP => unitG; case/eqP: x_neq0.
by rewrite -[x](mulKmx unitG) -mulmxA Vx0 mulmx0 mulmx0.
Qed.

(** With exact responses [V M0] the least-squares coefficients are [M0]. *)
Lemma least_squares_exact (N n d : nat) (V : 'M[F]_(N, d)) (M0 : 'M[F]_(d, n)) :
  V^T *m V \in unitmx -> least_squares V (V *m M0) = M0.
Proof.
by move=> unitG; rewrite /least_squares -mulmxA (mulmxA V^T) mulKmx.
Qed.

(** The coefficients of [calculate_map], line 143, solve the normal
    equations [V^T V M = V^T R] of the least-squares problem. *)
Lemma least_squares_normal (N n d : nat) (V : 'M[F]_(N, d)) (R : 'M[F]_(N, n)) :
  V^T *m V \in unitmx -> V^T *m V *m least_squares V R = V^T *m R.
Proof.
by move=> unitG; rewrite /least_squares -[X in _ *m X]mulmxA mulKVmx.
Qed.

End GramMatrix.

Section EstimatorLemmas.

Variable F : realFieldType.
Variables N n d : nat.
Implicit Types (V : 'M[F]_(N, d)) (R : array2 F N n).

Local Open Scope ring_scope.


Lemma calculate_map_singular R V (size : option (int * int)) :
  V^T *m V \notin unitmx -> calculate_map R V size = Raise LinAlgError.
Proof. by rewrite /calculate_map /linalg_inv => /negbTE->. Qed.

Lemma calculate_map_not_LinAlgError R V (size : option (int * int)) :
  V^T *m V \in unitmx -> calculate_map R V size <> Raise LinAlgError.
Proof.
rewrite /calculate_map /linalg_inv => -> /=.
rewrite /zeros; case: ifP => //= _.
by case: (matmul _ _) => A; apply: assign_rows_not_LinAlgError.
Qed.

Lemma calculate_map_shape R V (zx zy : int) (M : ndarray F) :
  calculate_map R V (Some (zx, zy)) = Ok M ->
  shape M = [:: d; absz zx; absz zy].
Proof.
rewrite /calculate_map /linalg_inv; case: ifP => //= _.
rewrite /zeros; case: ifP => //= _.
by case: (matmul _ _) => A /assign_rows_shape.
Qed.

Lemma assign_rows_zeros (T : Type) (cast : T -> F) (sx sy : nat)
  (A : 'M[T]_(d, n)) :
  (sx * sy)%N = n ->
  assign_rows cast [:: sx; sy]
    (NdArray [:: d; sx; sy] (nseq (numel [:: d; sx; sy]) 0)) 0 (mx_rows A)
  = Ok (NdArray [:: d; sx; sy] (map cast (flatten (mx_rows A)))).
Proof.
move=> eq_n.
rewrite -[nseq _ _]cat0s assign_rows_ok ?size_mx_rows ?eq_n //=.
- exact: all_size_mx_rows.
- by rewrite muln1 eq_n drop_oversize ?cats0 // size_nseq.
Qed.

Lemma calculate_map_float_ok (A : 'M[F]_(N, n)) V (sx sy : nat) :
  V^T *m V \in unitmx -> (sx * sy)%N = n ->
  calculate_map (Float64 A) V (Some (Posz sx, Posz sy))
  = Ok (NdArray [:: d; sx; sy] (flatten (mx_rows (least_squares V A)))).
Proof.
move=> unitG eq_n; rewrite /calculate_map /linalg_inv unitG /=.
by rewrite /zeros /= assign_rows_zeros // map_id.
Qed.

Lemma calculate_map_complex_ok (A : 'M[complex F]_(N, n)) V (sx sy : nat) :
  V^T *m V \in unitmx -> (sx * sy)%N = n ->
  calculate_map (Complex128 A) V (Some (Posz sx, Posz sy))
  = Ok (NdArray [:: d; sx; sy]
          (map (@Re F)
             (flatten (mx_rows
                (map_mx (@of_float F) (invmx (V^T *m V) *m V^T) *m A))))).
Proof.
move=> unitG eq_n; rewrite /calculate_map /linalg_inv unitG /=.
by rewrite /zeros /= assign_rows_zeros.
Qed.

Lemma mx_rows_cons (T : Type) (A : 'M[T]_(d, n)) :
  (0 < d)%N -> exists a rows, mx_rows A = a :: rows /\ size a = n.
Proof.
move=> d_gt0; have := size_mx_rows A; have := all_size_mx_rows A.
case: (mx_rows A) => [|a rows] /=; first by move=> _ eq_d; rewrite -eq_d in d_gt0.
by case/andP=> /eqP sz_a _ _; exists a, rows.
Qed.

Lemma calculate_map_mismatch R V (sx sy : nat) :
  V^T *m V \in unitmx -> (0 < d)%N -> (sx * sy)%N != n ->
  calculate_map R V (Some (Posz sx, Posz sy)) = Raise ValueError.
Proof.
move=> unitG d_gt0 neq_n; rewrite /calculate_map /linalg_inv unitG /=.
rewrite /zeros /=; case: (matmul _ _) => A.
  have [a [rows [-> sz_a]]] := mx_rows_cons A d_gt0.
  by apply: assign_rows_mismatch; rewrite /= muln1 sz_a.
have [a [rows [-> sz_a]]] := mx_rows_cons A d_gt0.
by apply: assign_rows_mismatch; rewrite /= muln1 sz_a.
Qed.

End EstimatorLemmas.

Section RowLemmas.

Variable T : Type.

Lemma size_flatten_rows (k : nat) (rows : seq (seq T)) :
  all (fun a => size a == k) rows -> size (flatten rows) = size rows * k.
Proof.
elim: rows => [|a rows IH] //= /andP[/eqP sz_a /IH sz_rows].
by rewrite size_cat sz_a sz_rows mulSn.
Qed.



Lemma size_flatten_mx_rows (m n : nat) (A : 'M[T]_(m, n)) :
  size (flatten (mx_rows A)) = m * n.
Proof.
by rewrite (size_flatten_rows (all_size_mx_rows A)) size_mx_rows.
Qed.

End RowLemmas.

Section ComplexLemmas.

Variable F : realFieldType.

Local Open Scope ring_scope.

Lemma Re_sum (I : Type) (r : seq I) (f : I -> complex F) :
  Re (\sum_(i <- r) f i) = \sum_(i <- r) Re (f i).
Proof. by apply: (big_morph (@Re F)). Qed.

Lemma Re_mul_float (x : F) (z : complex F) : Re (of_float x * z) = x * Re z.
Proof. by rewrite /GRing.mul /= mul0r subr0. Qed.

Lemma map_Re_mulmx (m n p : nat) (P : 'M[F]_(m, n)) (A : 'M[complex F]_(n, p)) :
  map_mx (@Re F) (map_mx (@of_float F) P *m A) = P *m map_mx (@Re F) A.
Proof.
apply/matrixP => i j; rewrite !mxE Re_sum; apply: eq_bigr => k _.
by rewrite !mxE Re_mul_float.
Qed.

Lemma map_flatten_mx_rows (S T : Type) (f : S -> T) (m n : nat)
  (A : 'M[S]_(m, n)) :
  map f (flatten (mx_rows A)) = flatten (mx_rows (map_mx f A)).
Proof.
rewrite map_flatten /mx_rows -!map_comp; congr flatten.
apply: eq_map => i /=; rewrite -map_comp; apply: eq_map => j /=.
by rewrite mxE.
Qed.

End ComplexLemmas.

Section EstimatorInversion.

Variable F : realFieldType.

Local Open Scope ring_scope.

Lemma calculate_map_empty (N n : nat) (R : array2 F N n) (V : 'M[F]_(N, 0))
  (sx sy : nat) :
  calculate_map R V (Some (Posz sx, Posz sy)) = Ok (NdArray [:: 0; sx; sy] [::]).
Proof.
rewrite /calculate_map /linalg_inv unitmxE det_mx00 unitr1 /= /zeros /=.
by case: (matmul _ _) => A; rewrite /mx_rows enum_ord0 /=.
Qed.

Lemma calculate_map_OkP (N n d : nat) (R : array2 F N n) (V : 'M[F]_(N, d))
  (size : option (int * int)) (M : ndarray F) :
  calculate_map R V size = Ok M ->
  V^T *m V \in unitmx /\
  exists sx sy : nat,
    [/\ size = Some (Posz sx, Posz sy) \/
        [/\ size = None, sx = round_sqrt n & sy = round_sqrt n]
      & d = 0 \/ (sx * sy)%N = n].
Proof.
case unitG: (V^T *m V \in unitmx); last first.
  by rewrite calculate_map_singular ?unitG.
have size_cases : exists zx zy,
    calculate_map R V size = calculate_map R V (Some (zx, zy)) /\
    (size = Some (zx, zy) \/
     [/\ size = None, zx = Posz (round_sqrt n) & zy = Posz (round_sqrt n)]).
  case: size => [[zx zy]|]; first by exists zx, zy; split; [|left].
  by exists (Posz (round_sqrt n)), (Posz (round_sqrt n)); split; [|right].
have [zx [zy [-> size_eq]]] := size_cases.
case: zx zy size_eq => [sx|kx] [sy|ky] size_eq;
  try by rewrite /calculate_map /linalg_inv unitG /zeros.
move=> eq_M; split=> //; exists sx, sy; split.
  by case: size_eq => [->|[-> [->] [->]]]; [left | right].
case: (posnP d) => [|d_gt0]; first by left.
right; apply/eqP; apply: contraTT isT => neq_n.
by move: eq_M; rewrite calculate_map_mismatch.
Qed.

End EstimatorInversion.

Section OpenRoutineLemmas.

Variable F : realFieldType.
Variable inv : forall k : nat, 'M[F]_k -> result 'M[F]_k.
Variable side : nat -> nat.
Variables N n d : nat.
Implicit Types (V : 'M[F]_(N, d)) (R : array2 F N n).

Local Open Scope ring_scope.

(** [calculate_map] is [calculate_map_with] at the exact inverse and the
    exact rounding. *)
Lemma calculate_map_withE R V (sz : option (int * int)) :
  calculate_map R V sz
  = calculate_map_with (@linalg_inv F) round_sqrt R V sz.
Proof. by []. Qed.

Lemma calculate_map_with_resolved R V (sz : option (int * int)) :
  calculate_map_with inv side R V sz
  = calculate_map_with inv side R V (Some (resolve_size_with side n sz)).
Proof. by case: sz => [[zx zy]|]. Qed.

Lemma calculate_map_with_raise R V (sz : option (int * int)) (e : exception) :
  inv (V^T *m V) = Raise e -> calculate_map_with inv side R V sz = Raise e.
Proof. by rewrite /calculate_map_with => ->. Qed.

Lemma calculate_map_with_not_LinAlgError R V (sz : option (int * int))
  (G : 'M[F]_d) :
  inv (V^T *m V) = Ok G -> calculate_map_with inv side R V sz <> Raise LinAlgError.
Proof.
rewrite /calculate_map_with => -> /=.
rewrite /zeros; case: ifP => //= _.
by case: (matmul _ _) => A; apply: assign_rows_not_LinAlgError.
Qed.

Lemma calculate_map_with_shape R V (zx zy : int) (M : ndarray F) :
  calculate_map_with inv side R V (Some (zx, zy)) = Ok M ->
  shape M = [:: d; absz zx; absz zy].
Proof.
rewrite /calculate_map_with; case: (inv _) => //= G.
rewrite /zeros; case: ifP => //= _.
by case: (matmul _ _) => A /assign_rows_shape.
Qed.

Lemma calculate_map_with_mismatch R V (G : 'M[F]_d) (sx sy : nat) :
  inv (V^T *m V) = Ok G -> (0 < d)%N -> (sx * sy)%N != n ->
  calculate_map_with inv side R V (Some (Posz sx, Posz sy)) = Raise ValueError.
Proof.
move=> eq_G d_gt0 neq_n; rewrite /calculate_map_with eq_G /=.
rewrite /zeros /=; case: (matmul _ _) => A.
  have [a [rows [-> sz_a]]] := mx_rows_cons A d_gt0.
  by apply: assign_rows_mismatch; rewrite /= muln1 sz_a.
have [a [rows [-> sz_a]]] := mx_rows_cons A d_gt0.
by apply: assign_rows_mismatch; rewrite /= muln1 sz_a.
Qed.

Lemma calculate_map_with_negative R V (G : 'M[F]_d) (zx zy : int) :
  inv (V^T *m V) = Ok G -> (zx < 0) || (zy < 0) ->
  calculate_map_with inv side R V (Some (zx, zy)) = Raise ValueError.
Proof.
move=> eq_G negative; rewrite /calculate_map_with eq_G /= /zeros /=.
by case: zx zy negative => [sx|kx] [sy|ky].
Qed.

Lemma calculate_map_with_match R V (G : 'M[F]_d) (sx sy : nat) :
  inv (V^T *m V) = Ok G -> (sx * sy)%N = n ->
  exists M : ndarray F,
    calculate_map_with inv side R V (Some (Posz sx, Posz sy)) = Ok M.
Proof.
move=> eq_G eq_n; rewrite /calculate_map_with eq_G /= /zeros /=.
by case: (matmul _ _) => A; rewrite assign_rows_zeros //; eexists.
Qed.

End OpenRoutineLemmas.

Section OpenRoutineEmpty.

Variable F : realFieldType.
Variable inv : forall k : nat, 'M[F]_k -> result 'M[F]_k.
Variable side : nat -> nat.

Local Open Scope ring_scope.

Lemma calculate_map_with_empty (N n : nat) (R : array2 F N n)
  (V : 'M[F]_(N, 0)) (G : 'M[F]_0) (sx sy : nat) :
  inv (V^T *m V) = Ok G ->
  calculate_map_with inv side R V (Some (Posz sx, Posz sy))
  = Ok (NdArray [:: 0%N; sx; sy] [::]).
Proof.
move=> eq_G; rewrite /calculate_map_with eq_G /= /zeros /=.
by case: (matmul _ _) => A; rewrite /mx_rows enum_ord0 /=.
Qed.

End OpenRoutineEmpty.

Section EstimatorClaims.

Variable F : realFieldType.

Local Open Scope ring_scope.



(** C3, amended.  [calculate_map] has no rank check of its own: it raises
    [LinAlgError] exactly when the inversion routine of line 143 raises it
    on the Gram matrix, whatever that routine does with a singular matrix.
    With a routine that does not raise on invertible matrices, stimuli of
    full column rank never lead to [LinAlgError]. *)
Theorem calculate_map_singular_design
  (inv : forall k : nat, 'M[F]_k -> result 'M[F]_k)
  (N n d : nat) (R : array2 F N n) (V : 'M[F]_(N, d))
  (sz : option (int * int)) :
  (calculate_map_with inv default_side R V sz = Raise LinAlgError <->
   inv d (V^T *m V) = Raise LinAlgError) /\
  ((forall A : 'M[F]_d, A \in unitmx -> inv d A <> Raise LinAlgError) ->
   \rank V = d ->
   calculate_map_with inv default_side R V sz <> Raise LinAlgError).
Proof.
have raisesP : calculate_map_with inv default_side R V sz = Raise LinAlgError ->
               inv d (V^T *m V) = Raise LinAlgError.
  case eq_G: (inv d (V^T *m V)) => [G|e] raised.
    by case: (@calculate_map_with_not_LinAlgError _ _ default_side _ _ _ R _ sz
                _ eq_G).
  by move: raised; rewrite (calculate_map_with_raise _ _ _ eq_G) => -[->].
split=> [|no_raise /gram_unit /no_raise not_raised /raisesP //].
by split=> [//|eq_inv]; exact: calculate_map_with_raise.
Qed.

(** C4, amended.  With [size] omitted a result has the square shape
    [(d, s, s)], where [s] is [int(np.round(np.sqrt(n)))] as line 147
    computes it for the number [n] of response columns.  When [n] is not a
    perfect square, the inversion of line 143 returns and there is at least
    one stimulus column, the call raises the [ValueError] of [reshape]; when
    the inversion raises, its error is the outcome, whatever [n] is. *)
Theorem calculate_map_default_size
  (inv : forall k : nat, 'M[F]_k -> result 'M[F]_k)
  (N n d : nat) (R : array2 F N n) (V : 'M[F]_(N, d)) :
  [/\ forall M : ndarray F,
        calculate_map_with inv default_side R V None = Ok M ->
        shape M = [:: d; default_side n; default_side n],
      (forall s : nat, n <> (s * s)%N) ->
      forall G : 'M[F]_d, inv d (V^T *m V) = Ok G -> (0 < d)%N ->
      calculate_map_with inv default_side R V None = Raise ValueError
    & forall e : exception, inv d (V^T *m V) = Raise e ->
      calculate_map_with inv default_side R V None = Raise e].
Proof.
split=> [M|not_sq G eq_G d_gt0|e]; last exact: calculate_map_with_raise.
  by rewrite calculate_map_with_resolved => /calculate_map_with_shape.
rewrite calculate_map_with_resolved /=.
apply: calculate_map_with_mismatch eq_G d_gt0 _.
by apply/eqP => /esym /not_sq.
Qed.

(** C10.  A successful call returns an array of floats also for complex
    responses: its buffer holds the real parts of the complex coefficients,
    and the call returns what it returns on the real parts of the responses
    alone. *)
Theorem calculate_map_discards_imaginary (N n d : nat)
  (R : 'M[complex F]_(N, n)) (V : 'M[F]_(N, d)) (size : option (int * int))
  (M : ndarray F) :
  calculate_map (Complex128 R) V size = Ok M ->
  data M = map (@Re F)
             (flatten (mx_rows
                (map_mx (@of_float F) (invmx (V^T *m V) *m V^T) *m R))) /\
  calculate_map (Float64 (map_mx (@Re F) R)) V size = Ok M.
Proof.
move=> eq_M; have [unitG [sx [sy [size_eq dims]]]] := calculate_map_OkP eq_M.
have eq_size (X : array2 F N n) :
    calculate_map X V size = calculate_map X V (Some (Posz sx, Posz sy)).
  by case: size_eq => [->|[-> -> ->]].
move: eq_M; rewrite !eq_size; case: dims => [d0|eq_n].
  move: V unitG eq_size; rewrite d0 => V0 _ _.
  rewrite !calculate_map_empty => -[<-] /=.
  by rewrite /mx_rows enum_ord0.
rewrite calculate_map_complex_ok // calculate_map_float_ok // => -[<-] /=.
by rewrite map_flatten_mx_rows map_Re_mulmx.
Qed.

End EstimatorClaims.

Section EstimatorWitnesses.

Local Open Scope ring_scope.

Lemma not_square_10 (s : nat) : 10%N <> (s * s)%N.
Proof.
move=> eq10; have [le3|gt3] := leqP s 3.
  by move: s le3 eq10 => [|[|[|[|s]]]].
by have := leq_mul gt3 gt3; rewrite -eq10.
Qed.

Lemma gram_unit_id (n : nat) : (1%:M : 'M[rat]_n)^T *m 1%:M \in unitmx.
Proof. by rewrite trmx1 mulmx1 unitmx1. Qed.

Lemma least_squares_normal_witness :
  (pid_mx 2 : 'M[rat]_(3, 2))^T *m (pid_mx 2 : 'M[rat]_(3, 2))
    *m least_squares (pid_mx 2 : 'M[rat]_(3, 2)) (const_mx 1 : 'M[rat]_(3, 4))
  = (pid_mx 2 : 'M[rat]_(3, 2))^T *m (const_mx 1 : 'M[rat]_(3, 4)).
Proof.
apply: (@least_squares_normal rat 3 4 2).
by apply: gram_unit; rewrite rank_pid_mx.
Defined.



Lemma calculate_map_singular_design_witness :
  calculate_map_with (@linalg_inv rat) default_side
    (Float64 (const_mx 1 : 'M[rat]_(3, 4))) (pid_mx 2 : 'M[rat]_(3, 2)) None
  <> Raise LinAlgError.
Proof.
have [_ full_rank] :=
  @calculate_map_singular_design rat (@linalg_inv rat) 3 4 2
    (Float64 (const_mx 1)) (pid_mx 2) None.
apply: full_rank; last by rewrite rank_pid_mx.
by move=> A unitA; rewrite /linalg_inv unitA.
Defined.

Lemma gram_counting : stimuli_counting^T *m stimuli_counting \notin unitmx.
Proof.
pose x : 'cV[rat]_3 := \col_j nth 0 [:: 1; -2%:R; 1] j.
apply: (@gram_kernel _ _ _ _ x).
  apply/eqP => /(congr1 (fun A : 'cV[rat]_3 => A ord0 ord0)).
  by rewrite !mxE.
apply/matrixP => i j; rewrite !mxE !big_ord_recl big_ord0 !mxE /=.
by case: i => [[|[|[|i]]] lt_i].
Qed.

Lemma gram_countingE :
  stimuli_counting^T *m stimuli_counting
  = \matrix_(i, j) (nth 0%N (nth [::] gram_counting_table i) j)%:R.
Proof.
apply/matrixP => i j; rewrite !mxE !big_ord_recl big_ord0 !mxE /=.
by case: i j => [[|[|[|i]]] lt_i] [[|[|[|j]]] lt_j] //=; vm_compute.
Qed.

Lemma mx_rows_counting :
  map (map float_of_rat) (mx_rows (stimuli_counting^T *m stimuli_counting))
  = map (map float_of_nat) gram_counting_table.
Proof.
rewrite gram_countingE /mx_rows !enum_ordSl !enum_ord0 /= !mxE /=.
by vm_compute.
Qed.

(** In binary64 the elimination of the Gram matrix
    [45 54 63; 54 66 78; 63 78 93] meets no zero pivot: its last pivot is a
    rounding residue, and the routine returns. *)
Lemma binary64_inv_counting :
  binary64_inv (stimuli_counting^T *m stimuli_counting)
  = Ok (invmx (stimuli_counting^T *m stimuli_counting)).
Proof.
rewrite /binary64_inv mx_rows_counting.
have : isSome (lu_pivots 3 (map (map float_of_nat) gram_counting_table)).
  by vm_compute.
by case: (lu_pivots _ _).
Qed.

Lemma binary64_inv_one :
  binary64_inv ((1%:M : 'M[rat]_1)^T *m 1%:M) = Ok (invmx (1%:M^T *m 1%:M)).
Proof.
by rewrite trmx1 mulmx1 /binary64_inv /mx_rows !enum_ordSl !enum_ord0 /= !mxE.
Qed.

Lemma binary64_inv_zero :
  binary64_inv ((0 : 'M[rat]_1)^T *m 0) = Raise LinAlgError.
Proof.
by rewrite mulmx0 /binary64_inv /mx_rows !enum_ordSl !enum_ord0 /= !mxE.
Qed.

(** C3, as stated, fails.  The Gram matrix of the stimuli
    [0 1 2; 3 4 5; 6 7 8] is singular, but the error comes from the
    inversion routine alone, and in binary64 the routine meets no zero pivot
    on this matrix and returns; the call then returns an array. *)
Lemma calculate_map_singular_design_counterexample :
  [/\ stimuli_counting^T *m stimuli_counting \notin unitmx,
      binary64_inv (stimuli_counting^T *m stimuli_counting)
      = Ok (invmx (stimuli_counting^T *m stimuli_counting))
    & exists M : ndarray rat,
        calculate_map_with binary64_inv default_side
          (Float64 (const_mx 1 : 'M[rat]_(3, 4))) stimuli_counting None
        = Ok M /\
        shape M = [:: 3; 2; 2]].
Proof.
split; [exact: gram_counting | exact: binary64_inv_counting |].
have [M eq_M] :=
  @calculate_map_with_match rat binary64_inv default_side 3 4 3
    (Float64 (const_mx 1)) stimuli_counting _ 2 2 binary64_inv_counting erefl.
exists M; split; first by rewrite calculate_map_with_resolved.
by move/calculate_map_with_shape: eq_M.
Defined.

Lemma calculate_map_default_size_witness :
  [/\ exists M : ndarray rat,
        calculate_map_with binary64_inv default_side
          (Float64 (const_mx 1 : 'M[rat]_(1, 4))) (1%:M : 'M[rat]_1) None
        = Ok M /\
        shape M = [:: 1%N; 2%N; 2%N],
      calculate_map_with binary64_inv default_side
        (Float64 (const_mx 1 : 'M[rat]_(1, 10))) (1%:M : 'M[rat]_1) None
      = Raise ValueError
    & calculate_map_with binary64_inv default_side
        (Float64 (const_mx 1 : 'M[rat]_(1, 10))) (0 : 'M[rat]_(1, 1)) None
      = Raise LinAlgError].
Proof.
split.
- have [M eq_M] :=
    @calculate_map_with_match rat binary64_inv default_side 1 4 1
      (Float64 (const_mx 1)) 1%:M _ 2 2 binary64_inv_one erefl.
  have [shape_ok _ _] :=
    @calculate_map_default_size rat binary64_inv 1 4 1
      (Float64 (const_mx 1)) 1%:M.
  have eq_M' : calculate_map_with binary64_inv default_side
                 (Float64 (const_mx 1 : 'M[rat]_(1, 4))) (1%:M : 'M[rat]_1) None
               = Ok M.
    by rewrite calculate_map_with_resolved.
  by exists M; split; [exact: eq_M' | exact: (shape_ok _ eq_M')].
- have [_ mismatch _] :=
    @calculate_map_default_size rat binary64_inv 1 10 1
      (Float64 (const_mx 1)) 1%:M.
  by apply: mismatch binary64_inv_one _; [exact: not_square_10 | reflexivity].
- have [_ _ raised] :=
    @calculate_map_default_size rat binary64_inv 1 10 1
      (Float64 (const_mx 1)) 0.
  exact: raised binary64_inv_zero.
Defined.

(** C4, as stated, fails: ten response columns are not a perfect square,
    yet with the singular stimuli matrix [0] the call raises [LinAlgError]
    at line 143, before any reshape, and not the [ValueError] of [reshape]. *)
Lemma calculate_map_default_size_counterexample :
  [/\ forall s : nat, 10%N <> (s * s)%N,
      calculate_map (Float64 (const_mx 1 : 'M[rat]_(1, 10)))
        (0 : 'M[rat]_(1, 1)) None = Raise LinAlgError
    & calculate_map (Float64 (const_mx 1 : 'M[rat]_(1, 10)))
        (0 : 'M[rat]_(1, 1)) None <> Raise ValueError].
Proof.
have singular : calculate_map (Float64 (const_mx 1 : 'M[rat]_(1, 10)))
                  (0 : 'M[rat]_(1, 1)) None = Raise LinAlgError.
  by apply: calculate_map_singular; rewrite mulmx0 unitmxE det0 unitr0.
by split; [exact: not_square_10 | | rewrite singular].
Defined.

Lemma complex_coefficient_example :
  map (@Re rat)
    (flatten (mx_rows
       (map_mx (@of_float rat)
          (invmx ((1%:M : 'M[rat]_1)^T *m 1%:M) *m 1%:M^T)
        *m (const_mx (Complex 2 5) : 'M_(1, 1)))))
  = [:: 2].
Proof.
rewrite trmx1 !mulmx1 invmx1 /mx_rows enum_ordSl enum_ord0 /=.
by rewrite !mxE big_ord_recl big_ord0 !mxE addr0 Re_mul_float /= mul1r.
Qed.

Lemma calculate_map_discards_imaginary_witness :
  exists M : ndarray rat,
    [/\ calculate_map (Complex128 (const_mx (Complex 2 5) : 'M_(1, 1)))
          (1%:M : 'M[rat]_1) None = Ok M,
        data M = [:: 2]
      & calculate_map
          (Float64 (map_mx (@Re rat) (const_mx (Complex 2 5) : 'M_(1, 1))))
          (1%:M : 'M[rat]_1) None = Ok M].
Proof.
have eq_M := @calculate_map_complex_ok rat 1 1 1
               (const_mx (Complex 2 5)) 1%:M 1 1 (gram_unit_id 1) erefl.
have [eq_data eq_real] := calculate_map_discards_imaginary eq_M.
eexists; split; [exact: eq_M | | exact: eq_real].
by rewrite eq_data complex_coefficient_example.
Defined.

End EstimatorWitnesses.

(** ** The generator *)

Section GeneratorLemmas.

Variable F : realFieldType.
Variable random_state : Type.
Variable standard_normal : random_state -> F * random_state.
Variable gaussian_filter : ndarray F -> F -> ndarray F.

Local Open Scope ring_scope.

Local Notation draw := (draw standard_normal).
Local Notation randn := (randn standard_normal).

Lemma size_draw (k : nat) (st : random_state) : size (draw k st).1 = k.
Proof.
elim: k st => [|k IH] st //=.
case: (standard_normal st) => x st1; have := IH st1.
by case: (draw k st1) => xs st2 /= ->.
Qed.

Lemma randn_nat (nx ny : nat) (st : random_state) :
  randn (Posz nx) (Posz ny) st
  = (Ok (NdArray [:: nx; ny] (draw (nx * ny) st).1), (draw (nx * ny) st).2).
Proof. by rewrite /randn; case: (draw _ _). Qed.

Lemma randn_negative (sx sy : int) (st : random_state) :
  (sx < 0) || (sy < 0) -> randn sx sy st = (Raise ValueError, st).
Proof. by case: sx sy => [nx|kx] [ny|ky]. Qed.

Lemma nth_elementwise (T : Type) (op : T -> T -> T) (x0 : T) (s t : seq T)
  (i : nat) :
  size s = size t -> (i < size s)%N ->
  nth x0 [seq op p.1 p.2 | p <- zip s t] i = op (nth x0 s i) (nth x0 t i).
Proof.
move=> eq_sz lt_i.
by rewrite (nth_map (x0, x0)) ?size_zip -?eq_sz ?minnn // nth_zip.
Qed.

Lemma elementwise_ok (T : Type) (op : T -> T -> T) (x0 : T) (a b : ndarray T) :
  same_shape a b ->
  exists c : ndarray T,
    [/\ elementwise op a b = Ok c, same_shape c a
      & forall i : nat, (i < size (data a))%N ->
          nth x0 (data c) i = op (nth x0 (data a) i) (nth x0 (data b) i)].
Proof.
case=> eq_sh eq_sz; rewrite /elementwise eq_sh eqxx.
eexists; split; first by [].
  by split; rewrite //= size_map size_zip -eq_sz minnn.
by move=> i lt_i; rewrite /= nth_elementwise.
Qed.

Lemma same_shape_trans (S T U : Type) (a : ndarray S) (b : ndarray T)
  (c : ndarray U) : same_shape a b -> same_shape b c -> same_shape a c.
Proof. by case=> sh1 sz1 [sh2 sz2]; split; rewrite ?sh1 ?sz1. Qed.

Lemma same_shape_sym (S T : Type) (a : ndarray S) (b : ndarray T) :
  same_shape a b -> same_shape b a.
Proof. by case=> sh sz; split. Qed.

Lemma same_shape_scale (T : pzRingType) (c : T) (a : ndarray T) :
  same_shape (scale c a) a.
Proof. by split; rewrite //= size_map. Qed.

Lemma same_shape_astype (a : ndarray F) : same_shape (astype_complex a) a.
Proof. by split; rewrite //= size_map. Qed.

Lemma complex_of_parts (x y : F) :
  of_float x + imaginary_unit F * of_float y = Complex x y.
Proof.
rewrite /GRing.add /GRing.mul /= /cadd /cmul /=; congr Complex; ring.
Qed.

End GeneratorLemmas.

Section DrawLemmas.

Variable F : realFieldType.
Variable random_state : Type.
Variable standard_normal : random_state -> F * random_state.

Local Open Scope ring_scope.

Lemma advance_add (m n : nat) (st : random_state) :
  advance standard_normal (m + n) st
  = advance standard_normal n (advance standard_normal m st).
Proof. by rewrite /advance addnC iterD. Qed.

Lemma nth_draw_advance (m i : nat) (st : random_state) :
  nth_draw standard_normal (advance standard_normal m st) i
  = nth_draw standard_normal st (m + i).
Proof. by rewrite /nth_draw advance_add. Qed.

(** [draw k] returns the draws number 0 to [k - 1] of the source and leaves
    it in the state after [k] draws. *)
Lemma draw_nth (k : nat) (st : random_state) :
  draw standard_normal k st
  = ([seq nth_draw standard_normal st i | i <- iota 0 k],
     advance standard_normal k st).
Proof.
elim: k st => [|k IH] st //=.
rewrite [standard_normal st]surjective_pairing IH.
rewrite -[1%N]/(1 + 0)%N iotaDl -map_comp; congr (_ :: _, _).
  by apply: eq_map => i /=; rewrite -(nth_draw_advance 1).
by rewrite /advance -iterSr.
Qed.

End DrawLemmas.

Section GeneratorClaims.

Variable F : realFieldType.
Variable random_state : Type.
Variable standard_normal : random_state -> F * random_state.
Variable gaussian_filter : ndarray F -> F -> ndarray F.

Local Open Scope ring_scope.

Local Notation draw := (draw standard_normal).

Local Notation band_pass := (band_pass gaussian_filter).

Lemma difference_of_gaussians_ok (sigma k alpha : F) (x : ndarray F) :
  (forall (a : ndarray F) (s : F), same_shape (gaussian_filter a s) a) ->
  exists y : ndarray F,
    [/\ difference_of_gaussians gaussian_filter sigma k alpha x = Ok y,
        same_shape y x
      & forall i : nat, (i < size (data x))%N ->
          nth 0 (data y) i = band_pass sigma k alpha x i].
Proof.
move=> filter_shape.
have [sh1 sz1] := filter_shape x sigma.
have [sh2 sz2] := filter_shape x (k * sigma).
have same : same_shape (scale alpha (gaussian_filter x sigma))
              (scale alpha (gaussian_filter x (k * sigma))).
  by split; rewrite /= ?size_map ?sh1 ?sh2 ?sz1 ?sz2.
have [y [eq_y same_y nth_y]] := elementwise_ok (fun u v => u - v) 0 same.
exists y; split=> // [|i lt_i].
  apply: same_shape_trans same_y _; apply: same_shape_trans (same_shape_scale _ _) _.
  exact: filter_shape.
by rewrite nth_y /= ?size_map ?sz1 // !(nth_map 0) ?sz1 ?sz2.
Qed.

(** The result of [make_opm] on a valid size, written with the two calls
    of [randn]: the noise grids are two successive runs of [sx * sy] draws,
    the second starting in the state the first one left. *)
Lemma make_opm_draws (sz : size_arg) (sx sy : nat) (sigma k alpha : F)
  (st : random_state) :
  (forall (a : ndarray F) (s : F), same_shape (gaussian_filter a s) a) ->
  valid_size sz sx sy ->
  let a := NdArray [:: sx; sy] (draw (sx * sy) st).1 in
  let st1 := (draw (sx * sy) st).2 in
  let b := NdArray [:: sx; sy] (draw (sx * sy) st1).1 in
  let st2 := (draw (sx * sy) st1).2 in
  exists m : ndarray (complex F),
    [/\ make_opm standard_normal gaussian_filter sz sigma k alpha st
        = (Ok m, st2),
        shape m = [:: sx; sy],
        size (data m) = (sx * sy)%N
      & forall i : nat, (i < sx * sy)%N ->
          nth 0 (data m) i
          = Complex (band_pass sigma k alpha a i) (band_pass sigma k alpha b i)].
Proof.
move=> filter_shape [unpack _] a st1 b st2.
rewrite /make_opm unpack !randn_nat -/a -/st1 -/b -/st2.
have [a' [-> [sh_a sz_a] nth_a]] :=
  difference_of_gaussians_ok sigma k alpha a filter_shape.
have [b' [-> [sh_b sz_b] nth_b]] :=
  difference_of_gaussians_ok sigma k alpha b filter_shape.
have sz_na : size (data a) = (sx * sy)%N by rewrite /= size_draw.
have sz_nb : size (data b) = (sx * sy)%N by rewrite /= size_draw.
have same : same_shape (astype_complex a')
              (scale (imaginary_unit F) (astype_complex b')).
  by split; rewrite /= ?size_map ?sh_a ?sh_b ?sz_a ?sz_b ?sz_na ?sz_nb.
have [m [eq_m [sh_m sz_m] nth_m]] := elementwise_ok +%R 0 same.
exists m; split=> [|||i lt_i].
- by rewrite /= eq_m.
- by rewrite sh_m /= sh_a.
- by rewrite sz_m /= size_map sz_a.
rewrite nth_m /= ?size_map ?sz_a ?sz_na //.
rewrite !(nth_map 0) ?size_map ?sz_a ?sz_b ?sz_na ?sz_nb // complex_of_parts.
by rewrite nth_a ?nth_b ?sz_na ?sz_nb.
Qed.

(** C6.  For a valid size [make_opm] returns a complex grid of shape
    [(sx, sy)].  With [N = sx * sy], its noise grid [a] holds the draws
    number [0] to [N - 1] that the random source yields from its state at the
    call, its noise grid [b] the draws number [N] to [2 N - 1], and the
    source is left in its state after [2 N] draws: no draw is used twice.
    Entry [i] of the result is [a'[i] + 1j * b'[i]] for the band-pass
    filtered grids [a' = alpha * G(a, sigma) - alpha * G(a, k * sigma)] and
    [b'] likewise, given that the Gaussian filter returns an array of the
    shape of its input. *)
Theorem make_opm_valid (sz : size_arg) (sx sy : nat) (sigma k alpha : F)
  (st : random_state) :
  (forall (a : ndarray F) (s : F), same_shape (gaussian_filter a s) a) ->
  valid_size sz sx sy ->
  let N := (sx * sy)%N in
  let a := NdArray [:: sx; sy]
             [seq nth_draw standard_normal st i | i <- iota 0 N] in
  let b := NdArray [:: sx; sy]
             [seq nth_draw standard_normal st (N + i) | i <- iota 0 N] in
  exists m : ndarray (complex F),
    [/\ make_opm standard_normal gaussian_filter sz sigma k alpha st
        = (Ok m, advance standard_normal (N + N) st),
        shape m = [:: sx; sy],
        size (data m) = N
      & forall i : nat, (i < N)%N ->
          nth 0 (data m) i
          = Complex (band_pass sigma k alpha a i)
              (band_pass sigma k alpha b i)].
Proof.
move=> filter_shape valid N a b.
have := make_opm_draws sigma k alpha st filter_shape valid.
rewrite /= !draw_nth /= -advance_add -/N.
have -> : [seq nth_draw standard_normal (advance standard_normal N st) i
          | i <- iota 0 N] = data b.
  by apply: eq_map => i; rewrite nth_draw_advance.
by [].
Qed.

(** A size with a dimension zero is accepted: the noise grids are empty,
    and so is the result, whatever the shape-preserving filter. *)
Lemma make_opm_empty (sz : size_arg) (nx ny : nat) (sigma k alpha : F)
  (st : random_state) :
  (forall (a : ndarray F) (s : F), same_shape (gaussian_filter a s) a) ->
  unpack_size sz = Ok (Posz nx, Posz ny) -> (nx == 0%N) || (ny == 0%N) ->
  make_opm standard_normal gaussian_filter sz sigma k alpha st
  = (Ok (NdArray [:: nx; ny] [::]), st).
Proof.
move=> filter_shape unpack; rewrite -muln_eq0 => /eqP eq0.
rewrite /make_opm unpack !randn_nat eq0 /=.
set e := NdArray _ _.
have [a' [-> [sh_a sz_a] _]] :=
  difference_of_gaussians_ok sigma k alpha e filter_shape.
rewrite /= /elementwise /= sh_a eqxx /=.
by case: (data a') sz_a.
Qed.

(** C5, amended.  When a dimension of the size is negative, [make_opm]
    raises the [ValueError] of the noise sampler and leaves the random
    source untouched.  A dimension zero is not rejected: with no negative
    dimension beside it the result is an empty grid of the shape asked for. *)
Theorem make_opm_negative_size (sz : size_arg) (sigma k alpha : F)
  (st : random_state) :
  (forall sx sy : int,
     unpack_size sz = Ok (sx, sy) -> (sx < 0) || (sy < 0) ->
     make_opm standard_normal gaussian_filter sz sigma k alpha st
     = (Raise ValueError, st)) /\
  ((forall (a : ndarray F) (s : F), same_shape (gaussian_filter a s) a) ->
   forall nx ny : nat,
     unpack_size sz = Ok (Posz nx, Posz ny) -> (nx == 0%N) || (ny == 0%N) ->
     make_opm standard_normal gaussian_filter sz sigma k alpha st
     = (Ok (NdArray [:: nx; ny] [::]), st)).
Proof.
split=> [sx sy unpack negative|filter_shape nx ny unpack zero].
  by rewrite /make_opm unpack randn_negative.
exact: make_opm_empty.
Qed.

End GeneratorClaims.

Section GeneratorWitnesses.

Local Open Scope ring_scope.

Lemma identity_filter_shape (a : ndarray rat) (s : rat) :
  same_shape (identity_filter a s) a.
Proof. by []. Qed.

Lemma mean_filter_shape (a : ndarray rat) (s : rat) :
  same_shape (mean_filter a s) a.
Proof. by split; rewrite //= size_map. Qed.

Lemma make_opm_valid_witness :
  make_opm square_normal mean_filter (SizeTuple [:: Posz 2; Posz 2]) 1 2 1 0%N
  = (Ok (NdArray [:: 2%N; 2%N]
           [:: Complex (- 7%:R / 12%:R) (- 31%:R / 12%:R);
               Complex (- 5%:R / 12%:R) (- 13%:R / 12%:R);
               Complex (1 / 12%:R) (3%:R / 4%:R);
               Complex (11%:R / 12%:R) (35%:R / 12%:R)]),
     8%N).
Proof.
have [|| [sh dt] /= [-> -> sz_dt nth_dt]] :=
  @make_opm_valid rat nat square_normal mean_filter
    (SizeTuple [:: Posz 2; Posz 2]) 2 2 1 2 1 0%N.
- exact: mean_filter_shape.
- by split; [reflexivity | split; reflexivity].
congr (Ok (NdArray _ _), _).
apply: (@eq_from_nth _ 0) => // i; rewrite sz_dt => lt_i.
rewrite nth_dt // /band_pass /mean_filter /nth_draw /= !big_cons big_nil.
by case: i lt_i => [|[|[|[|i]]]] // _; vm_compute.
Defined.

Lemma make_opm_negative_size_witness :
  make_opm counter_normal identity_filter (SizeInt (Negz 0)) 4 2 1 7%N
  = (Raise ValueError, 7%N) /\
  make_opm counter_normal identity_filter
    (SizeTuple [:: Posz 3; Posz 0]) 4 2 1 7%N
  = (Ok (NdArray [:: 3%N; 0%N] [::]), 7%N).
Proof.
split.
- have [negative _] :=
    @make_opm_negative_size rat nat counter_normal identity_filter
      (SizeInt (Negz 0)) 4 2 1 7%N.
  by apply: (negative (Negz 0) (Negz 0)); reflexivity.
- have [_ empty] :=
    @make_opm_negative_size rat nat counter_normal identity_filter
      (SizeTuple [:: Posz 3; Posz 0]) 4 2 1 7%N.
  by apply: (empty identity_filter_shape 3%N 0%N); reflexivity.
Defined.

(** C5, as stated, fails: the size 0 is not positive, yet [make_opm] raises
    nothing and returns an empty grid of shape [(0, 0)]. *)
Lemma make_opm_nonpositive_counterexample :
  unpack_size (SizeInt 0) = Ok (Posz 0, Posz 0) /\
  make_opm counter_normal identity_filter (SizeInt 0) 4 2 1 7%N
  = (Ok (NdArray [:: 0%N; 0%N] [::]), 7%N).
Proof.
split; first by [].
exact: (make_opm_empty counter_normal 4 2 1 7%N identity_filter_shape
          (erefl : unpack_size (SizeInt 0) = Ok (Posz 0, Posz 0)) isT).
Defined.

End GeneratorWitnesses.

(** ** The angle of the plot *)

Section VisualisationClaims.

Local Open Scope R_scope.

Lemma arctan2_bounds (y x : R) : - PI < arctan2 y x <= PI.
Proof.
have PI_pos := PI_RGT_0.
have [lo hi] := atan_bound (y / x).
rewrite /arctan2.
case: (Rlt_dec 0 x) => [x_pos|x_npos] /=; first by Lra.lra.
case: (Rlt_dec x 0) => [x_neg|x_nneg] /=; last first.
  case: (Rlt_dec 0 y) => _ /=; first by Lra.lra.
  by case: (Rlt_dec y 0) => _ /=; Lra.lra.
case: (Rle_dec 0 y) => [y_nneg|y_neg] /=.
  suff : atan (y / x) <= 0 by Lra.lra.
  rewrite -atan_0; case: (Req_dec y 0) => [->|y_neq0].
    by rewrite /Rdiv Rmult_0_l; apply: Rle_refl.
  apply: Rlt_le; apply: atan_increasing.
  rewrite /Rdiv; apply: Rmult_pos_neg; first by Lra.lra.
  exact: Rinv_lt_0_compat.
suff : 0 < atan (y / x) by Lra.lra.
rewrite -atan_0; apply: atan_increasing.
rewrite /Rdiv; apply: Rmult_neg_neg; first by Lra.lra.
exact: Rinv_lt_0_compat.
Qed.

Lemma theta_bounds (z : complex R) :
  0 <= 0.5 * (angle z + PI) <= PI.
Proof. by have := arctan2_bounds (Im z) (Re z); rewrite /angle; Lra.lra. Qed.

Lemma iscomplex_real (x : R) : iscomplex (Complex x 0) = false.
Proof. by rewrite /iscomplex /=; case: (Req_dec_T 0 0). Qed.

(** C9.  The guard of line 49, [np.iscomplex(m).any()], tests the imaginary
    parts and not the dtype.  The complex map with the single entry [5 + 0j]
    has no entry of non-zero imaginary part, so [theta] is the map itself, a
    complex array whose entry 5 is above pi, and not the array of
    [0.5 * (angle(m) + pi)] that a complex map is to be given. *)
Lemma plot_opm_theta_counterexample :
  let m := NdArray [:: 1%N; 1%N] [:: Complex 5 0] in
  [/\ plot_opm_theta (ComplexMap m) = ComplexMap m,
      plot_opm_theta (ComplexMap m)
      <> FloatMap (NdArray (shape m) [seq 0.5 * (angle z + PI) | z <- data m])
    & PI < 5].
Proof.
have eq_m : plot_opm_theta (ComplexMap (NdArray [:: 1%N; 1%N] [:: Complex 5 0]))
            = ComplexMap (NdArray [:: 1%N; 1%N] [:: Complex 5 0]).
  by rewrite /= iscomplex_real.
split=> //; first by rewrite eq_m.
by have := PI_4; Lra.lra.
Defined.

End VisualisationClaims.

(* ===================================================================== *)
(** * Part III: further properties of the code *)
(* ===================================================================== *)

(** ** The plots: angle and amplitude *)

Section VisualisationExtras.

Local Open Scope R_scope.

Lemma iscomplexP (z : complex R) : reflect (Im z <> 0) (iscomplex z).
Proof. by rewrite /iscomplex; case: (Req_dec_T (Im z) 0) => h; constructor; auto. Qed.

Lemma iscomplex_rescale (c : R) (z : complex R) :
  c <> 0 -> iscomplex (Complex (c * Re z) (c * Im z)) = iscomplex z.
Proof.
move=> c_neq0; apply/iscomplexP/iscomplexP => /= im_neq0.
  by move=> im0; apply: im_neq0; rewrite im0 Rmult_0_r.
by apply: Rmult_integral_contrapositive.
Qed.

Lemma has_iscomplex_rescale (c : R) (a : ndarray (complex R)) :
  c <> 0 -> has iscomplex (data (rescale c a)) = has iscomplex (data a).
Proof.
move=> c_neq0; rewrite /= has_map; apply: eq_has => z /=.
exact: iscomplex_rescale.
Qed.

Lemma arctan2_scale (c y x : R) :
  0 < c -> arctan2 (c * y) (c * x) = arctan2 y x.
Proof.
move=> c_pos; rewrite /arctan2.
repeat match goal with
  | |- context [Rlt_dec ?u ?v] => case: (Rlt_dec u v) => ? /=
  | |- context [Rle_dec ?u ?v] => case: (Rle_dec u v) => ? /=
  end;
  try (exfalso; Lra.nra); try reflexivity;
  rewrite Rdiv_mult_l_l //; try Lra.lra.
Qed.

Lemma cabs_scale (c : R) (z : complex R) :
  0 <= c -> cabs (Complex (c * Re z) (c * Im z)) = c * cabs z.
Proof.
move=> c_nneg; rewrite /cabs /=.
have -> : c * Re z * (c * Re z) + c * Im z * (c * Im z)
          = (c * c) * (Re z * Re z + Im z * Im z) by real_ring.
by rewrite sqrt_mult ?sqrt_square //; Lra.nra.
Qed.

Lemma cabs_ge0 (z : complex R) : 0 <= cabs z.
Proof. exact: sqrt_pos. Qed.

Lemma cabs_factor (x y : R) :
  x <> 0 -> sqrt (x * x + y * y) = sqrt (x * x) * sqrt (1 + (y / x)²).
Proof.
move=> x_neq0; rewrite -sqrt_mult; try by rewrite /Rsqr; Lra.nra.
by congr sqrt; rewrite /Rsqr; real_field.
Qed.

Lemma sqrt_atan_pos (u : R) : 0 < sqrt (1 + u²).
Proof. by apply: sqrt_lt_R0; rewrite /Rsqr; Lra.nra. Qed.

Lemma cos_minus_PI (t : R) : cos (t - PI) = - cos t.
Proof.
have := neg_cos (t - PI); have -> : t - PI + PI = t by real_ring.
by move=> ->; real_ring.
Qed.

Lemma sin_minus_PI (t : R) : sin (t - PI) = - sin t.
Proof.
have := neg_sin (t - PI); have -> : t - PI + PI = t by real_ring.
by move=> ->; real_ring.
Qed.

(** The modulus and the angle of a complex number give it back. *)
Lemma polar_form (z : complex R) :
  Re z = cabs z * cos (angle z) /\ Im z = cabs z * sin (angle z).
Proof.
case: z => x y; rewrite /cabs /angle /arctan2 /=.
have spos := sqrt_atan_pos (y / x).
case: (Rlt_dec 0 x) => [x_pos|x_npos] /=.
  rewrite cabs_factor ?sqrt_square ?cos_atan ?sin_atan; try Lra.lra.
  by split; real_field; Lra.lra.
case: (Rlt_dec x 0) => [x_neg|x_nneg] /=.
  have sqrt_x : sqrt (x * x) = - x.
    have -> : x * x = (- x) * (- x) by real_ring.
    by rewrite sqrt_square; Lra.lra.
  rewrite cabs_factor ?sqrt_x; first by Lra.lra.
  case: (Rle_dec 0 y) => _ /=.
    rewrite neg_cos neg_sin cos_atan sin_atan.
    by split; real_field; Lra.lra.
  rewrite cos_minus_PI sin_minus_PI cos_atan sin_atan.
  by split; real_field; Lra.lra.
have -> : x = 0 by Lra.lra.
have -> : 0 * 0 + y * y = y * y by real_ring.
case: (Rlt_dec 0 y) => [y_pos|y_npos] /=.
  rewrite cos_PI2 sin_PI2 sqrt_square; first by Lra.lra.
  by split; real_ring.
case: (Rlt_dec y 0) => [y_neg|y_nneg] /=.
  have -> : y * y = (- y) * (- y) by real_ring.
  have -> : - PI / 2 = - (PI / 2) by real_field.
  rewrite cos_neg sin_neg cos_PI2 sin_PI2 sqrt_square; first by Lra.lra.
  by split; real_ring.
have -> : y = 0 by Lra.lra.
by rewrite Rmult_0_l sqrt_0; split; real_ring.
Qed.

Lemma has_iscomplex_i :
  has iscomplex (data (NdArray [:: 1%N; 1%N] [:: Complex 0 1])).
Proof. by rewrite /= orbF; apply/iscomplexP => /=; apply: R1_neq_R0. Qed.

(** For a complex map with at least one entry of non-zero imaginary part the
    array given to the plot has the shape of the map and is, entry by entry,
    [theta = 0.5 * (angle(m) + pi)], with every value between 0 and pi. *)
Theorem plot_opm_theta_rescaled (a : ndarray (complex R)) :
  has iscomplex (data a) ->
  exists theta : ndarray R,
    [/\ plot_opm_theta (ComplexMap a) = FloatMap theta,
        shape theta = shape a,
        data theta = [seq 0.5 * (angle z + PI) | z <- data a]
      & forall i : nat, (i < size (data theta))%N ->
          0 <= nth 0 (data theta) i <= PI].
Proof.
move=> /= ->; eexists; split; [by [] | by [] | by [] |] => i /=.
rewrite size_map => lt_i; rewrite (nth_map (Complex 0 0)) //.
exact: theta_bounds.
Qed.

Lemma plot_opm_theta_rescaled_witness :
  exists theta : ndarray R,
    [/\ plot_opm_theta (ComplexMap (NdArray [:: 1%N; 1%N] [:: Complex 0 1]))
        = FloatMap theta,
        shape theta = [:: 1%N; 1%N],
        data theta = [seq 0.5 * (angle z + PI) | z <- [:: Complex 0 1]]
      & forall i : nat, (i < size (data theta))%N ->
          0 <= nth 0 (data theta) i <= PI].
Proof.
apply: (@plot_opm_theta_rescaled (NdArray [:: 1%N; 1%N] [:: Complex 0 1])).
exact: has_iscomplex_i.
Defined.

(** The angle given to the plot does not depend on the amplitude of the
    map: multiplying a complex map (one with an entry of non-zero imaginary
    part) by a positive real number leaves [theta] unchanged. *)
Theorem plot_opm_theta_scale_invariant (c : R) (a : ndarray (complex R)) :
  0 < c -> has iscomplex (data a) ->
  plot_opm_theta (ComplexMap (rescale c a)) = plot_opm_theta (ComplexMap a).
Proof.
move=> c_pos complex_a; have c_neq0 : c <> 0 by Lra.lra.
rewrite /plot_opm_theta (has_iscomplex_rescale _ c_neq0) complex_a.
congr (FloatMap (NdArray _ _)); rewrite /= -map_comp; apply: eq_map => z /=.
by rewrite /angle /= arctan2_scale.
Qed.

Lemma plot_opm_theta_scale_invariant_witness :
  plot_opm_theta
    (ComplexMap (rescale 2 (NdArray [:: 1%N; 1%N] [:: Complex 0 1])))
  = plot_opm_theta (ComplexMap (NdArray [:: 1%N; 1%N] [:: Complex 0 1])).
Proof.
apply: plot_opm_theta_scale_invariant; [Lra.lra | exact: has_iscomplex_i].
Defined.

(** The array [A] of [plot_amplitude_map]: for a complex map with an entry
    of non-zero imaginary part it has the shape of the map and holds the
    moduli of its entries, none of them negative; a complex map without
    such an entry is given to the plot as it is, negative entries included. *)
Theorem plot_amplitude_map_complex (a : ndarray (complex R)) :
  (has iscomplex (data a) ->
   exists A : ndarray R,
     [/\ plot_amplitude_map_A (ComplexMap a) = FloatMap A,
         shape A = shape a,
         size (data A) = size (data a)
       & forall i : nat, (i < size (data a))%N ->
           nth 0 (data A) i = cabs (nth (Complex 0 0) (data a) i) /\
           0 <= nth 0 (data A) i]) /\
  (~~ has iscomplex (data a) ->
   plot_amplitude_map_A (ComplexMap a) = ComplexMap a).
Proof.
split=> [/= ->|/= /negbTE-> //].
eexists; split; [by [] | by [] | by rewrite /= size_map |] => i lt_i /=.
by rewrite (nth_map (Complex 0 0)) //; split=> //; apply: cabs_ge0.
Qed.

Lemma plot_amplitude_map_complex_witness :
  (exists A : ndarray R,
     [/\ plot_amplitude_map_A
           (ComplexMap (NdArray [:: 1%N; 1%N] [:: Complex 0 1])) = FloatMap A,
         shape A = [:: 1%N; 1%N],
         size (data A) = 1%N
       & forall i : nat, (i < 1)%N ->
           nth 0 (data A) i = cabs (nth (Complex 0 0) [:: Complex 0 1] i) /\
           0 <= nth 0 (data A) i]) /\
  plot_amplitude_map_A (ComplexMap (NdArray [:: 1%N; 1%N] [:: Complex (-1) 0]))
  = ComplexMap (NdArray [:: 1%N; 1%N] [:: Complex (-1) 0]).
Proof.
split.
- have [modulus _] :=
    plot_amplitude_map_complex (NdArray [:: 1%N; 1%N] [:: Complex 0 1]).
  exact: (modulus has_iscomplex_i).
- have [_ unchanged] :=
    plot_amplitude_map_complex (NdArray [:: 1%N; 1%N] [:: Complex (-1) 0]).
  by apply: unchanged; rewrite /= iscomplex_real.
Defined.

(** The amplitude given to the plot is homogeneous: multiplying a complex
    map by a positive real number [c] multiplies every entry of [A] by [c]. *)
Theorem plot_amplitude_map_scale (c : R) (a : ndarray (complex R)) :
  0 < c -> has iscomplex (data a) ->
  plot_amplitude_map_A (ComplexMap (rescale c a))
  = FloatMap (NdArray (shape a) [seq c * cabs z | z <- data a]).
Proof.
move=> c_pos complex_a; have c_neq0 : c <> 0 by Lra.lra.
rewrite /plot_amplitude_map_A (has_iscomplex_rescale _ c_neq0) complex_a.
congr (FloatMap (NdArray _ _)); rewrite /= -map_comp; apply: eq_map => z /=.
by rewrite cabs_scale //; Lra.lra.
Qed.

Lemma plot_amplitude_map_scale_witness :
  plot_amplitude_map_A
    (ComplexMap (rescale 2 (NdArray [:: 1%N; 1%N] [:: Complex 0 1])))
  = FloatMap (NdArray [:: 1%N; 1%N] [seq 2 * cabs z | z <- [:: Complex 0 1]]).
Proof.
apply: (@plot_amplitude_map_scale 2 (NdArray [:: 1%N; 1%N] [:: Complex 0 1]));
  [Lra.lra | exact: has_iscomplex_i].
Defined.

(** The two arrays handed to the plots determine the map: with [theta] from
    [plot_opm] and [A] from [plot_amplitude_map], entry [i] of a complex map
    is [A[i] * exp(1j * (2 * theta[i] - pi))]. *)
Theorem plots_determine_map (a : ndarray (complex R)) (theta A : ndarray R) :
  has iscomplex (data a) ->
  plot_opm_theta (ComplexMap a) = FloatMap theta ->
  plot_amplitude_map_A (ComplexMap a) = FloatMap A ->
  forall i : nat, (i < size (data a))%N ->
    nth (Complex 0 0) (data a) i
    = Complex (nth 0 (data A) i * cos (2 * nth 0 (data theta) i - PI))
              (nth 0 (data A) i * sin (2 * nth 0 (data theta) i - PI)).
Proof.
move=> /= -> [<-] [<-] i lt_i /=; rewrite !(nth_map (Complex 0 0)) //.
set z := nth _ _ _.
have -> : 2 * (0.5 * (angle z + PI)) - PI = angle z by Lra.lra.
by have [{1}<- {1}<-] := polar_form z; case: z.
Qed.

Lemma plots_determine_map_witness :
  nth (Complex 0 0) [:: Complex 0 1] 0
  = Complex
      (nth 0 [seq cabs z | z <- [:: Complex 0 1]] 0
       * cos (2 * nth 0 [seq 0.5 * (angle z + PI) | z <- [:: Complex 0 1]] 0
              - PI))
      (nth 0 [seq cabs z | z <- [:: Complex 0 1]] 0
       * sin (2 * nth 0 [seq 0.5 * (angle z + PI) | z <- [:: Complex 0 1]] 0
              - PI)).
Proof.
apply: (@plots_determine_map (NdArray [:: 1%N; 1%N] [:: Complex 0 1])
          (NdArray [:: 1%N; 1%N] [seq 0.5 * (angle z + PI) | z <- [:: Complex 0 1]])
          (NdArray [:: 1%N; 1%N] [seq cabs z | z <- [:: Complex 0 1]])
          has_iscomplex_i _ _ 0%N isT).
- by rewrite /plot_opm_theta has_iscomplex_i.
- by rewrite /plot_amplitude_map_A has_iscomplex_i.
Defined.

End VisualisationExtras.

(** ** The estimator: success, errors, linearity, optimality *)

(** ** The default side of the map *)

Section DefaultSide.

(** For a number [n] of response columns below 4096 the default side of
    line 147 is the integer nearest to the square root of [n]:
    [(2 s - 1)^2 < 4 n < (2 s + 1)^2].  This does not extend to every [n]:
    at [n = 2^52 + 2^26 + 1] the double nearest to the square root is
    [2^26 + 1/2], which [np.round] takes to the even [2^26], while the
    nearest integer is [2^26 + 1]. *)
Theorem default_side_nearest :
  (forall n : nat, 0 < n < 4096 ->
     (2 * default_side n - 1) ^ 2 < 4 * n < (2 * default_side n + 1) ^ 2) /\
  (let n := (2 ^ 52 + 2 ^ 26 + 1)%binZ in
   let s := (2 ^ 26 + 1)%binZ in
   sqrt_side n = (2 ^ 26)%binZ /\
   ((2 * s - 1) ^ 2 < 4 * n < (2 * s + 1) ^ 2)%binZ).
Proof.
split=> [n /andP[n_gt0 lt_n]|]; last by vm_compute.
by rewrite default_side_exact //; apply: round_sqrt_nearest.
Qed.

Lemma default_side_nearest_witness :
  (2 * default_side 10 - 1) ^ 2 < 4 * 10 < (2 * default_side 10 + 1) ^ 2.
Proof. by have [small _] := default_side_nearest; apply: (small 10). Defined.

End DefaultSide.

Section EstimatorExtraLemmas.

Variable F : realFieldType.

Local Open Scope ring_scope.

Lemma calculate_map_resolved (N n d : nat) (R : array2 F N n)
  (V : 'M[F]_(N, d)) (size : option (int * int)) :
  calculate_map R V size = calculate_map R V (Some (resolve_size n size)).
Proof. by case: size => [[zx zy]|]. Qed.

Lemma calculate_map_ok (N n d : nat) (R : array2 F N n) (V : 'M[F]_(N, d))
  (sx sy : nat) :
  V^T *m V \in unitmx -> d = 0%N \/ (sx * sy)%N = n ->
  exists M : ndarray F,
    [/\ calculate_map R V (Some (Posz sx, Posz sy)) = Ok M,
        shape M = [:: d; sx; sy]
      & size (data M) = (d * (sx * sy))%N].
Proof.
move=> unitG [d0|eq_n].
  move: V unitG; rewrite d0 => V _; rewrite calculate_map_empty.
  by eexists; split.
case: R => A.
  rewrite calculate_map_float_ok //; eexists; split=> //=.
  by rewrite size_flatten_mx_rows eq_n.
rewrite calculate_map_complex_ok //; eexists; split=> //=.
by rewrite size_map size_flatten_mx_rows eq_n.
Qed.


Lemma assign_rows_ValueError (T : Type) (cast : T -> F) (dims : seq nat)
  (M : ndarray F) (i : nat) (rows : seq (seq T)) (e : exception) :
  (i + size rows <= head 0%N (shape M))%N ->
  assign_rows cast dims M i rows = Raise e -> e = ValueError.
Proof.
elim: rows M i => [|a rows IH] M i //= le_d.
rewrite /reshape; case: ifP => [_ /=|_ [] //].
have lt_i : (i < head 0%N (shape M))%N.
  by apply: leq_trans le_d; rewrite addnS ltnS leq_addr.
rewrite /setitem lt_i /=; case: ifP => [_ [] //|_ /=].
by apply: IH; rewrite /= addSn -addnS.
Qed.

Lemma zip_flatten_map (I S T : Type) (f : I -> seq S) (g : I -> seq T)
  (s : seq I) :
  (forall i, size (f i) = size (g i)) ->
  zip (flatten (map f s)) (flatten (map g s))
  = flatten [seq zip (f i) (g i) | i <- s].
Proof.
by move=> eq_sz; elim: s => [|i s IH] //=; rewrite zip_cat ?IH.
Qed.

Lemma flatten_mx_rows_op (op : F -> F -> F) (m n : nat) (A B : 'M[F]_(m, n)) :
  [seq op p.1 p.2 | p <- zip (flatten (mx_rows A)) (flatten (mx_rows B))]
  = flatten (mx_rows (\matrix_(i, j) op (A i j) (B i j))).
Proof.
have eq_sz (i : 'I_m) :
    size [seq A i j | j <- enum 'I_n] = size [seq B i j | j <- enum 'I_n].
  by rewrite !size_map.
rewrite /mx_rows (zip_flatten_map _ eq_sz).
rewrite map_flatten -!map_comp; congr flatten; apply: eq_map => i /=.
by rewrite zip_map -!map_comp; apply: eq_map => j /=; rewrite mxE.
Qed.

Lemma flatten_mx_rows_scale (c : F) (m n : nat) (A : 'M[F]_(m, n)) :
  [seq c * x | x <- flatten (mx_rows A)] = flatten (mx_rows (c *: A)).
Proof.
rewrite /mx_rows map_flatten -!map_comp; congr flatten; apply: eq_map => i /=.
by rewrite -map_comp; apply: eq_map => j /=; rewrite mxE.
Qed.

End EstimatorExtraLemmas.

Section EstimatorExtras.

Variable F : realFieldType.

Local Open Scope ring_scope.

(** [calculate_map] returns a result exactly when the inversion of line 143
    returns, the size (given or defaulted) has no negative dimension, and
    its dimensions multiply to the number of response columns or there is no
    stimulus column at all. *)
Theorem calculate_map_succeeds_iff
  (inv : forall k : nat, 'M[F]_k -> result 'M[F]_k)
  (N n d : nat) (R : array2 F N n) (V : 'M[F]_(N, d))
  (sz : option (int * int)) :
  (exists M : ndarray F, calculate_map_with inv default_side R V sz = Ok M) <->
  (exists G : 'M[F]_d, inv d (V^T *m V) = Ok G) /\
  exists sx sy : nat,
    resolve_size_with default_side n sz = (Posz sx, Posz sy) /\
    (d = 0%N \/ (sx * sy)%N = n).
Proof.
rewrite calculate_map_with_resolved.
case eq_G: (inv d (V^T *m V)) => [G|e]; last first.
  rewrite (calculate_map_with_raise _ _ _ eq_G).
  by split=> [[M]|[[G]]].
case: (resolve_size_with default_side n sz) => zx zy.
have [negative|] := boolP ((zx < 0) || (zy < 0)).
  rewrite (calculate_map_with_negative _ _ eq_G negative).
  split=> [[M] //|[_ [sx [sy [[eq_x eq_y] _]]]]].
  by move: negative; rewrite eq_x eq_y.
case: zx zy => [sx|kx] [sy|ky] //= _.
split=> [[M eq_M]|[_ [sx' [sy' [[<- <-] dims]]]]].
  split; first by exists G.
  exists sx, sy; split=> //.
  case: (posnP d) => [|d_gt0]; first by left.
  right; apply/eqP; apply: contraTT isT => neq_n.
  by move: eq_M; rewrite (calculate_map_with_mismatch _ _ eq_G).
case: dims => [d0|eq_n]; last exact: calculate_map_with_match eq_G eq_n.
move: V G eq_G; rewrite d0 => V0 G0 eq_G0.
by rewrite (calculate_map_with_empty _ _ _ _ eq_G0); eexists.
Qed.

(** A result of [calculate_map] is a well-formed array of shape
    [(d, sx, sy)]: its buffer holds as many numbers as the shape says. *)
Theorem calculate_map_well_formed (N n d : nat) (R : array2 F N n)
  (V : 'M[F]_(N, d)) (sz : option (int * int)) (M : ndarray F) :
  calculate_map R V sz = Ok M ->
  shape M = [:: d; absz (resolve_size n sz).1; absz (resolve_size n sz).2]
  /\ size (data M) = numel (shape M).
Proof.
move=> eq_M; have [unitG [sx [sy [size_eq dims]]]] := calculate_map_OkP eq_M.
have eq_size : resolve_size n sz = (Posz sx, Posz sy).
  by case: size_eq => [->|[-> -> ->]].
have [M' [eq_M' sh_M sz_M]] := calculate_map_ok R unitG dims.
move: eq_M; rewrite calculate_map_resolved eq_size eq_M' => -[<-].
by rewrite sh_M sz_M /= muln1.
Qed.

(** [calculate_map] raises nothing but [LinAlgError] and [ValueError]: the
    row index of the assignment [M[i] = ...] is never out of bounds. *)
Theorem calculate_map_errors (N n d : nat) (R : array2 F N n)
  (V : 'M[F]_(N, d)) (size : option (int * int)) (e : exception) :
  calculate_map R V size = Raise e -> e = LinAlgError \/ e = ValueError.
Proof.
rewrite /calculate_map /linalg_inv; case: ifP => _ /=; last by case=> <-; left.
rewrite /zeros; case: ifP => _ /=; last by case=> <-; right.
by case: (matmul _ _) => A eq_e; right; apply: assign_rows_ValueError eq_e;
   rewrite /= size_mx_rows.
Qed.


Lemma sq_norm_tr (m n : nat) (A : 'M[F]_(m, n)) :
  sq_norm A = \tr (A^T *m A).
Proof.
rewrite /sq_norm /mxtrace exchange_big; apply: eq_bigr => j _.
by rewrite mxE; apply: eq_bigr => i _; rewrite mxE expr2.
Qed.

Lemma sq_norm_ge0 (m n : nat) (A : 'M[F]_(m, n)) : 0 <= sq_norm A.
Proof.
by apply: sumr_ge0 => i _; apply: sumr_ge0 => j _; apply: sqr_ge0.
Qed.

Lemma normal_equations (N n d : nat) (V : 'M[F]_(N, d)) (R : 'M[F]_(N, n)) :
  V^T *m V \in unitmx -> V^T *m (R - V *m least_squares V R) = 0.
Proof.
move=> unitG; rewrite mulmxBr mulmxA /least_squares.
by rewrite -[invmx _ *m _ *m _]mulmxA mulKVmx // subrr.
Qed.

(** The estimator is linear in the responses: the map of a sum of two
    response matrices is the entrywise sum of their maps, and the map of
    [c * R] is [c] times the map of [R]. *)
Theorem calculate_map_linear (N n d : nat) (R1 R2 : 'M[F]_(N, n))
  (V : 'M[F]_(N, d)) (sz : option (int * int)) (c : F) (M1 M2 : ndarray F) :
  calculate_map (Float64 R1) V sz = Ok M1 ->
  calculate_map (Float64 R2) V sz = Ok M2 ->
  (exists M : ndarray F,
     calculate_map (Float64 (R1 + R2)) V sz = Ok M /\
     elementwise +%R M1 M2 = Ok M) /\
  calculate_map (Float64 (c *: R1)) V sz = Ok (scale c M1).
Proof.
move=> eq_M1 eq_M2.
have [unitG [sx [sy [size_eq dims]]]] := calculate_map_OkP eq_M1.
have eq_size : resolve_size n sz = (Posz sx, Posz sy).
  by case: size_eq => [->|[-> -> ->]].
move: eq_M1 eq_M2; rewrite !(calculate_map_resolved _ _ sz) eq_size.
case: dims => [d0|eq_n].
  move: V unitG; rewrite d0 => V0 _; rewrite !calculate_map_empty.
  move=> [<-] [<-]; split=> //; eexists; split; first by [].
  by rewrite /elementwise eqxx.
rewrite !calculate_map_float_ok // => -[<-] [<-]; split.
  eexists; split; first by [].
  rewrite /elementwise eqxx /= flatten_mx_rows_op; congr (Ok (NdArray _ _)).
  congr (flatten (mx_rows _)); rewrite /least_squares mulmxDr.
  by apply/matrixP => i j; rewrite !mxE.
rewrite /scale /= flatten_mx_rows_scale; congr (Ok (NdArray _ _)).
by congr (flatten (mx_rows _)); rewrite /least_squares scalemxAr.
Qed.

(** The estimator is a projection: fitting the responses that the estimated
    coefficients predict, [V M_flat], returns the same map again. *)
Theorem calculate_map_refit (N n d : nat) (R : 'M[F]_(N, n))
  (V : 'M[F]_(N, d)) (sz : option (int * int)) :
  calculate_map (Float64 (V *m least_squares V R)) V sz
  = calculate_map (Float64 R) V sz.
Proof.
rewrite /calculate_map /linalg_inv; case: ifP => //= unitG.
by rewrite -/(least_squares V (V *m _)) least_squares_exact.
Qed.

(** The order of the observations does not matter: permuting the rows of
    the stimuli and of the responses in the same way leaves the result
    unchanged. *)
Theorem calculate_map_permutation (N n d : nat) (s : {perm 'I_N})
  (R : 'M[F]_(N, n)) (V : 'M[F]_(N, d)) (sz : option (int * int)) :
  calculate_map (Float64 (row_perm s R)) (row_perm s V) sz
  = calculate_map (Float64 R) V sz.
Proof.
have cancel_perm (p q : nat) (A : 'M[F]_(N, p)) (B : 'M[F]_(N, q)) :
    (row_perm s A)^T *m row_perm s B = A^T *m B.
  rewrite !row_permE trmx_mul tr_perm_mx mulmxA -(mulmxA A^T) -perm_mxM.
  by rewrite mulVg perm_mx1 mulmx1.
rewrite /calculate_map cancel_perm /linalg_inv; case: ifP => //= _.
by rewrite -!mulmxA cancel_perm.
Qed.

(** The coefficients of line 143 are the least-squares estimate: no other
    coefficient matrix has a smaller sum of squared residuals. *)
Theorem least_squares_optimal (N n d : nat) (V : 'M[F]_(N, d))
  (R : 'M[F]_(N, n)) (M' : 'M[F]_(d, n)) :
  V^T *m V \in unitmx ->
  sq_norm (R - V *m least_squares V R) <= sq_norm (R - V *m M').
Proof.
move=> unitG; have := normal_equations R unitG.
have -> : R - V *m M'
          = (R - V *m least_squares V R) + V *m (least_squares V R - M').
  by rewrite mulmxBr addrA subrK.
move: (R - V *m least_squares V R) (least_squares V R - M') => E D VtE.
rewrite !sq_norm_tr [(E + _)^T]raddfD /= mulmxDl !mulmxDr !mxtraceD.
have -> : E^T *m (V *m D) = 0.
  by rewrite mulmxA -[E^T *m V]trmxK trmx_mul trmxK VtE trmx0 mul0mx.
have -> : (V *m D)^T *m E = 0 by rewrite trmx_mul -mulmxA VtE mulmx0.
by rewrite mxtrace0 addr0 add0r lerDl -sq_norm_tr sq_norm_ge0.
Qed.

End EstimatorExtras.

Section EstimatorExtraWitnesses.

Local Open Scope ring_scope.

Lemma calculate_map_succeeds_iff_witness :
  exists M : ndarray rat,
    calculate_map_with binary64_inv default_side
      (Float64 (const_mx 1 : 'M[rat]_(3, 4))) stimuli_counting None = Ok M.
Proof.
apply/(@calculate_map_succeeds_iff rat binary64_inv 3 4 3).
split; first by eexists; exact: binary64_inv_counting.
by exists 2%N, 2%N; split; [reflexivity | right].
Defined.

Lemma calculate_map_well_formed_witness :
  shape (NdArray [:: 1%N; 2%N; 2%N]
           (flatten (mx_rows (least_squares (1%:M : 'M[rat]_1)
                                (const_mx 1 : 'M[rat]_(1, 4))))))
  = [:: 1%N; absz (resolve_size 4 None).1; absz (resolve_size 4 None).2] /\
  size (data (NdArray [:: 1%N; 2%N; 2%N]
                (flatten (mx_rows (least_squares (1%:M : 'M[rat]_1)
                                     (const_mx 1 : 'M[rat]_(1, 4)))))))
  = numel [:: 1%N; 2%N; 2%N].
Proof.
apply: (@calculate_map_well_formed rat 1 4 1 (Float64 (const_mx 1)) 1%:M None).
exact: (@calculate_map_float_ok rat 1 4 1 (const_mx 1) 1%:M 2 2
          (gram_unit_id 1) erefl).
Defined.

Lemma calculate_map_errors_witness :
  LinAlgError = LinAlgError \/ LinAlgError = ValueError.
Proof.
apply: (@calculate_map_errors rat 1 4 1 (Float64 (const_mx 1)) 0 None).
by apply: calculate_map_singular; rewrite mulmx0 unitmxE det0 unitr0.
Defined.


Lemma calculate_map_linear_witness :
  let M1 := NdArray [:: 1%N; 2%N; 2%N]
              (flatten (mx_rows (least_squares (1%:M : 'M[rat]_1)
                                   (const_mx 1 : 'M[rat]_(1, 4))))) in
  let M2 := NdArray [:: 1%N; 2%N; 2%N]
              (flatten (mx_rows (least_squares (1%:M : 'M[rat]_1)
                                   (const_mx 2 : 'M[rat]_(1, 4))))) in
  (exists M : ndarray rat,
     calculate_map (Float64 (const_mx 1 + const_mx 2 : 'M[rat]_(1, 4)))
       (1%:M : 'M[rat]_1) None = Ok M /\
     elementwise +%R M1 M2 = Ok M) /\
  calculate_map (Float64 (3 *: const_mx 1 : 'M[rat]_(1, 4)))
    (1%:M : 'M[rat]_1) None = Ok (scale 3 M1).
Proof.
apply: (@calculate_map_linear rat 1 4 1 (const_mx 1) (const_mx 2) 1%:M None).
- exact: (@calculate_map_float_ok rat 1 4 1 (const_mx 1) 1%:M 2 2
            (gram_unit_id 1) erefl).
- exact: (@calculate_map_float_ok rat 1 4 1 (const_mx 2) 1%:M 2 2
            (gram_unit_id 1) erefl).
Defined.

Lemma least_squares_optimal_witness :
  sq_norm ((const_mx 1 : 'M[rat]_(3, 4))
           - (pid_mx 2 : 'M[rat]_(3, 2))
             *m least_squares (pid_mx 2 : 'M[rat]_(3, 2)) (const_mx 1))
  <= sq_norm ((const_mx 1 : 'M[rat]_(3, 4))
              - (pid_mx 2 : 'M[rat]_(3, 2)) *m 0).
Proof.
apply: (@least_squares_optimal rat 3 4 2).
by apply: gram_unit; rewrite rank_pid_mx.
Defined.

End EstimatorExtraWitnesses.

(** ** The pixel indices and the generator: edge cases and effects *)

Section IndexExtras.

(** Pixel [(x, y)] of an [sx] by [sy] map is row [y * sx + x] of the table
    of [get_indices]. *)
Theorem get_indices_lookup (sz : size_arg) (sx sy x y : nat) :
  valid_size sz sx sy -> x < sx -> y < sy ->
  exists idx : ndarray nat,
    get_indices sz = Ok idx /\
    nth [::] (array_rows idx) (y * sx + x) = [:: x; y].
Proof.
move=> valid lt_x lt_y; rewrite (get_indices_valid valid).
eexists; split; first by [].
have lt_k : y * sx + x < sx * sy.
  have lt1 : y * sx + x < y.+1 * sx by rewrite mulSn addnC ltn_add2r.
  by apply: leq_trans lt1 _; rewrite mulnC leq_mul2l lt_y orbT.
rewrite array_rows_indices (nth_map 0) ?size_iota // nth_iota // add0n.
rewrite /index_row modnMDl modn_small // divnMDl ?divn_small ?addn0 //.
by case: (sx) lt_x.
Qed.

Lemma get_indices_lookup_witness :
  exists idx : ndarray nat,
    get_indices (SizeTuple [:: Posz 2; Posz 3]) = Ok idx /\
    nth [::] (array_rows idx) (2 * 2 + 1) = [:: 1; 2].
Proof.
apply: (@get_indices_lookup (SizeTuple [:: Posz 2; Posz 3]) 2 3 1 2).
- by split; [reflexivity | split; reflexivity].
- reflexivity.
- reflexivity.
Defined.

(** [get_indices] does not reject a size: when a dimension is zero or
    negative it returns the empty table of shape [(0, 2)]. *)
Theorem get_indices_nonpositive (sz : size_arg) (zx zy : int) :
  unpack_size sz = Ok (zx, zy) -> ((zx <= 0) || (zy <= 0))%R ->
  get_indices sz = Ok (NdArray [:: 0; 2] [::]).
Proof.
move=> unpack nonpos.
pose clip (z : int) := if z is Posz k then k else 0.
have -> : get_indices sz
          = get_indices (SizeTuple [:: Posz (clip zx); Posz (clip zy)]).
  by rewrite /get_indices unpack /=; case: (zx) (zy) => [sx|kx] [sy|ky].
have eq0 : clip zy * clip zx = 0.
  by apply/eqP; rewrite muln_eq0; case: zx zy nonpos {unpack} => [[|sx]|kx] [[|sy]|ky].
by rewrite get_indices_pair eq0.
Qed.

Lemma get_indices_nonpositive_witness :
  get_indices (SizeTuple [:: Negz 2; Posz 4]) = Ok (NdArray [:: 0; 2] [::]).
Proof.
apply: (@get_indices_nonpositive (SizeTuple [:: Negz 2; Posz 4])
          (Negz 2) (Posz 4)); reflexivity.
Defined.

End IndexExtras.

Section GeneratorExtras.

Variable F : realFieldType.
Variable random_state : Type.
Variable standard_normal : random_state -> F * random_state.
Variable gaussian_filter : ndarray F -> F -> ndarray F.

Hypothesis filter_shape :
  forall (a : ndarray F) (s : F), same_shape (gaussian_filter a s) a.

Local Open Scope ring_scope.

Local Notation draw := (draw standard_normal).

Lemma draw_add (m n : nat) (st : random_state) :
  draw (m + n) st
  = ((draw m st).1 ++ (draw n (draw m st).2).1, (draw n (draw m st).2).2).
Proof.
elim: m st => [|m IH] st /=; first by case: (draw n st).
case: (standard_normal st) => x st1; rewrite IH.
by case: (draw m st1) => xs st2 /=.
Qed.

Lemma of_float_mul (x : F) (z : complex F) :
  of_float x * z = Complex (x * Re z) (x * Im z).
Proof. by rewrite -[LHS]/(cmul (of_float x) z) /cmul /= !mul0r subr0 addr0. Qed.

(** The result of [make_opm] on a valid size, entry by entry. *)
Lemma make_opm_entries (sz : size_arg) (sx sy : nat) (sigma k alpha : F)
  (st : random_state) :
  valid_size sz sx sy ->
  let a := NdArray [:: sx; sy] (draw (sx * sy) st).1 in
  let st1 := (draw (sx * sy) st).2 in
  let b := NdArray [:: sx; sy] (draw (sx * sy) st1).1 in
  let st2 := (draw (sx * sy) st1).2 in
  exists dt : seq (complex F),
    [/\ make_opm standard_normal gaussian_filter sz sigma k alpha st
        = (Ok (NdArray [:: sx; sy] dt), st2),
        size dt = (sx * sy)%N
      & forall i : nat, (i < sx * sy)%N ->
          nth 0 dt i
          = Complex (band_pass gaussian_filter sigma k alpha a i) (band_pass gaussian_filter sigma k alpha b i)].
Proof.
move=> [unpack _] a st1 b st2.
rewrite /make_opm unpack !randn_nat -/a -/st1 -/b -/st2.
have [a' [-> [sh_a sz_a] nth_a]] :=
  difference_of_gaussians_ok sigma k alpha a filter_shape.
have [b' [-> [sh_b sz_b] nth_b]] :=
  difference_of_gaussians_ok sigma k alpha b filter_shape.
have sz_na : size (data a) = (sx * sy)%N by rewrite /= size_draw.
have sz_nb : size (data b) = (sx * sy)%N by rewrite /= size_draw.
have same : same_shape (astype_complex a')
              (scale (imaginary_unit F) (astype_complex b')).
  by split; rewrite /= ?size_map ?sh_a ?sh_b ?sz_a ?sz_b ?sz_na ?sz_nb.
have [[sh dt] [eq_m [/= sh_m sz_m] nth_m]] := elementwise_ok +%R 0 same.
exists dt; split=> [||i lt_i].
- by rewrite /= eq_m sh_m sh_a.
- by rewrite sz_m size_map sz_a.
rewrite nth_m /= ?size_map ?sz_a ?sz_na //.
rewrite !(nth_map 0) ?size_map ?sz_a ?sz_b ?sz_na ?sz_nb // complex_of_parts.
by rewrite nth_a ?nth_b ?sz_na ?sz_nb.
Qed.

(** With [k = 1] the two Gaussian blurs coincide and the generated map is
    zero everywhere: the function does not require [k > 1]. *)
Theorem make_opm_k_one (sz : size_arg) (sx sy : nat) (sigma alpha : F)
  (st : random_state) :
  valid_size sz sx sy ->
  exists st' : random_state,
    make_opm standard_normal gaussian_filter sz sigma 1 alpha st
    = (Ok (NdArray [:: sx; sy] (nseq (sx * sy) 0)), st').
Proof.
move=> valid.
have [dt [-> sz_dt nth_dt]] := make_opm_entries sigma 1 alpha st valid.
eexists; congr (Ok (NdArray _ _), _).
apply: (@eq_from_nth _ 0); rewrite ?size_nseq // sz_dt => i lt_i.
by rewrite nth_dt // nth_nseq lt_i /band_pass mul1r !subrr.
Qed.

(** The amplitude multiplier [alpha] scales the map: the map generated with
    [alpha] is [alpha] times the map generated with [alpha = 1] from the
    same state of the random source. *)
Theorem make_opm_alpha (sz : size_arg) (sx sy : nat) (sigma k alpha : F)
  (st : random_state) :
  valid_size sz sx sy ->
  exists (m1 : ndarray (complex F)) (st' : random_state),
    make_opm standard_normal gaussian_filter sz sigma k 1 st = (Ok m1, st') /\
    make_opm standard_normal gaussian_filter sz sigma k alpha st
    = (Ok (scale (of_float alpha) m1), st').
Proof.
move=> valid.
have [dt1 [eq1 sz_dt1 nth_dt1]] := make_opm_entries sigma k 1 st valid.
have [dt [-> sz_dt nth_dt]] := make_opm_entries sigma k alpha st valid.
eexists; eexists; split; first exact: eq1.
congr (Ok (NdArray _ _), _).
apply: (@eq_from_nth _ 0); rewrite ?size_map ?sz_dt ?sz_dt1 // => i lt_i.
rewrite (nth_map 0) ?sz_dt1 // nth_dt // nth_dt1 //.
by rewrite of_float_mul /band_pass /=; congr Complex; ring.
Qed.

(** A successful call consumes exactly [2 * sx * sy] draws of the random
    source. *)
Theorem make_opm_consumes (sz : size_arg) (sx sy : nat) (sigma k alpha : F)
  (st : random_state) :
  valid_size sz sx sy ->
  exists m : ndarray (complex F),
    make_opm standard_normal gaussian_filter sz sigma k alpha st
    = (Ok m, (draw (2 * (sx * sy)) st).2).
Proof.
move=> valid.
have [dt [-> _ _]] := make_opm_entries sigma k alpha st valid.
by eexists; rewrite mul2n -addnn draw_add.
Qed.

End GeneratorExtras.

Section MalformedSize.

Variable F : realFieldType.
Variable random_state : Type.
Variable standard_normal : random_state -> F * random_state.
Variable gaussian_filter : ndarray F -> F -> ndarray F.

(** A size tuple that has not two elements is rejected by both functions
    with the [ValueError] of the unpacking, before anything is drawn. *)
Theorem size_tuple_malformed (t : seq int) (sigma k alpha : F)
  (st : random_state) :
  size t <> 2 ->
  get_indices (SizeTuple t) = Raise ValueError /\
  make_opm standard_normal gaussian_filter (SizeTuple t) sigma k alpha st
  = (Raise ValueError, st).
Proof.
by case: t => [|a [|b [|c t]]].
Qed.

End MalformedSize.

Section GeneratorExtraWitnesses.

Local Open Scope ring_scope.

Lemma make_opm_k_one_witness :
  exists st' : nat,
    make_opm counter_normal identity_filter (SizeInt (Posz 2)) 4 1 3 0%N
    = (Ok (NdArray [:: 2%N; 2%N] (nseq (2 * 2) 0)), st').
Proof.
apply: (@make_opm_k_one rat nat counter_normal identity_filter
          identity_filter_shape (SizeInt (Posz 2)) 2 2 4 3 0%N).
by split; [reflexivity | split; reflexivity].
Defined.

Lemma make_opm_alpha_witness :
  exists (m1 : ndarray (complex rat)) (st' : nat),
    make_opm counter_normal identity_filter (SizeInt (Posz 2)) 4 2 1 0%N
    = (Ok m1, st') /\
    make_opm counter_normal identity_filter (SizeInt (Posz 2)) 4 2 3 0%N
    = (Ok (scale (of_float 3) m1), st').
Proof.
apply: (@make_opm_alpha rat nat counter_normal identity_filter
          identity_filter_shape (SizeInt (Posz 2)) 2 2 4 2 3 0%N).
by split; [reflexivity | split; reflexivity].
Defined.

Lemma make_opm_consumes_witness :
  exists m : ndarray (complex rat),
    make_opm counter_normal identity_filter (SizeInt (Posz 2)) 4 2 1 0%N
    = (Ok m, (draw counter_normal (2 * (2 * 2)) 0%N).2).
Proof.
apply: (@make_opm_consumes rat nat counter_normal identity_filter
          identity_filter_shape (SizeInt (Posz 2)) 2 2 4 2 1 0%N).
by split; [reflexivity | split; reflexivity].
Defined.

Lemma size_tuple_malformed_witness :
  get_indices (SizeTuple [:: Posz 1; Posz 2; Posz 3]) = Raise ValueError /\
  make_opm counter_normal identity_filter
    (SizeTuple [:: Posz 1; Posz 2; Posz 3]) 4 2 1 0%N
  = (Raise ValueError, 0%N).
Proof.
by apply: (@size_tuple_malformed rat nat counter_normal identity_filter
             [:: Posz 1; Posz 2; Posz 3] 4 2 1 0%N).
Defined.

End GeneratorExtraWitnesses.

Section StreamLemmas.

Variable F : realFieldType.
Variable gaussian_filter : ndarray F -> F -> ndarray F.

Hypothesis filter_shape :
  forall (a : ndarray F) (s : F), same_shape (gaussian_filter a s) a.

Local Open Scope ring_scope.

Lemma advance_stream (w : nat -> F) (n t : nat) :
  advance (stream_normal w) n t = (t + n)%N.
Proof. by rewrite /advance /= iter_succn. Qed.

Lemma nth_draw_stream (w : nat -> F) (t i : nat) :
  nth_draw (stream_normal w) t i = w (t + i)%N.
Proof. by rewrite /nth_draw advance_stream. Qed.

Lemma draw_stream (w : nat -> F) (n t : nat) :
  draw (stream_normal w) n t = ([seq w (t + i)%N | i <- iota 0 n], (t + n)%N).
Proof.
rewrite draw_nth advance_stream; congr (_, _).
by apply: eq_map => i; rewrite nth_draw_stream.
Qed.

(** The real part of the generated map is a function of the first
    [sx * sy] numbers drawn and the imaginary part of the next [sx * sy]:
    two sequences of samples that agree on one of the two blocks give maps
    that agree on the corresponding part, whatever the other block holds. *)
Theorem make_opm_separate_draws (sz : size_arg) (sx sy : nat)
  (sigma k alpha : F) (w w' : nat -> F) (t : nat) :
  valid_size sz sx sy ->
  let N := (sx * sy)%N in
  exists m m' : ndarray (complex F),
    [/\ make_opm (stream_normal w) gaussian_filter sz sigma k alpha t
        = (Ok m, (t + (N + N))%N),
        make_opm (stream_normal w') gaussian_filter sz sigma k alpha t
        = (Ok m', (t + (N + N))%N),
        (forall i : nat, (i < N)%N -> w (t + i)%N = w' (t + i)%N) ->
        map (@Re F) (data m) = map (@Re F) (data m')
      & (forall i : nat, (i < N)%N -> w (t + N + i)%N = w' (t + N + i)%N) ->
        map (@Im F) (data m) = map (@Im F) (data m')].
Proof.
move=> valid N.
have [dt [-> sz_dt nth_dt]] :=
  make_opm_entries (stream_normal w) filter_shape sigma k alpha t valid.
have [dt' [-> sz_dt' nth_dt']] :=
  make_opm_entries (stream_normal w') filter_shape sigma k alpha t valid.
rewrite !draw_stream /= -/N addnA in nth_dt nth_dt' *.
exists (NdArray [:: sx; sy] dt), (NdArray [:: sx; sy] dt').
split=> //= agree; apply: (@eq_from_nth _ 0); rewrite ?size_map ?sz_dt ?sz_dt' //;
  move=> i lt_i; rewrite !(nth_map 0) ?sz_dt ?sz_dt' // nth_dt // nth_dt' //=.
  congr (band_pass _ _ _ _ (NdArray _ _) _).
  by apply/eq_in_map => j; rewrite mem_iota => /agree.
congr (band_pass _ _ _ _ (NdArray _ _) _).
by apply/eq_in_map => j; rewrite mem_iota => /agree.
Qed.

End StreamLemmas.

Section StreamWitness.

Local Open Scope ring_scope.

Lemma make_opm_separate_draws_witness :
  exists m m' : ndarray (complex rat),
    [/\ make_opm (stream_normal (fun n => (n * n)%:R)) mean_filter
          (SizeInt (Posz 2)) 1 2 1 0%N = (Ok m, 8%N),
        make_opm (stream_normal (fun n => if (n < 4)%N then (n * n)%:R else 0))
          mean_filter (SizeInt (Posz 2)) 1 2 1 0%N = (Ok m', 8%N)
      & map (@Re rat) (data m) = map (@Re rat) (data m')].
Proof.
have [|m [m' [eq_m eq_m' same_re _]]] :=
  @make_opm_separate_draws rat mean_filter mean_filter_shape
    (SizeInt (Posz 2)) 2 2 1 2 1
    (fun n => (n * n)%:R) (fun n => if (n < 4)%N then (n * n)%:R else 0) 0%N.
  by split; [reflexivity | split; reflexivity].
exists m, m'; split=> //; apply: same_re => i lt_i.
by rewrite add0n lt_i.
Defined.

End StreamWitness.
